(** * lab2: a thread-partitioned [any_of] and its K-sweep benchmark

    A shallow embedding of [src/lab2_plusy/lab2.cpp].

    - [Machine]   : the integer types of the target the source names
                    (MSVC, 64-bit): [int], [size_t], and the limits of
                    [std::vector<int>] and [std::vector<bool>].
    - [Clock]     : [MeasureExecutionTime] (lines 20-26), over the
                    readings of the clock.
    - [Engine]    : [ParallelAnyOf] (lines 31-55).  The worker threads are
                    modelled as small state machines over a shared store;
                    a schedule says in which order they take their steps.
    - [Generator] : [FillRandomNonTarget] and the three initializers
                    (lines 57-86), over an explicit stream of random draws.
    - [Sweep]     : the K-analysis of [AnalyzePerformanceForCase]
                    (lines 107-141), over an explicit sequence of measured
                    durations.

    - [Main]      : the three scenarios of [main] (lines 144-175).

    [Partitions], [Schedules], [Footprint], [Scenario], [Minimum],
    [Workers] and [Ties] hold the predicates in which the properties are
    stated.  The definitions come first, the proofs after them. *)

From Stdlib Require Import ZArith List Lia Bool QArith.
From stdpp Require Import base list sorting.

Open Scope Z_scope.

(* ===================================================================== *)
(** * Machine integers and containers *)
(* ===================================================================== *)

Module Machine.

(** [size_t] is a 64-bit unsigned integer; [to_size_t] is both the
    conversion of an [int] to [size_t] and the wrap-around of unsigned
    arithmetic. *)
Definition SIZE_MODULUS : Z := 2 ^ 64.
Definition to_size_t (x : Z) : Z := x mod SIZE_MODULUS.

(** [int] is a 32-bit signed integer. *)
Definition INT_MIN : Z := - 2 ^ 31.
Definition INT_MAX : Z := 2 ^ 31 - 1.
Definition is_int (x : Z) : Prop := INT_MIN <= x <= INT_MAX.

(** Signed arithmetic that leaves the range of [int] is undefined in the
    language; the target wraps in two's complement, which is what
    [to_int] writes out. *)
Definition to_int (x : Z) : Z := (x + 2 ^ 31) mod 2 ^ 32 - 2 ^ 31.

(** [std::vector<int>::max_size()]: the allocator's limit,
    [SIZE_MAX / sizeof(int)]. *)
Definition vector_int_max_size : Z := 2 ^ 62 - 1.

(** [std::vector<bool>] stores its elements as single bits packed into
    words of [VBITS] bits (an [unsigned int] in the MSVC library); its
    [max_size()] is [PTRDIFF_MAX]. *)
Definition VBITS : Z := 32.
Definition vector_bool_max_size : Z := 2 ^ 63 - 1.

(** What a call can do: return, throw, or run into behaviour the language
    leaves undefined (here: integer division by zero).  The exceptions
    are those of the containers: [std::length_error] and
    [std::bad_alloc]. *)
Inductive exception : Type :=
| length_error
| bad_alloc.

(** What the constructor of a [vector<bool>] does with a request for
    more than [max_size()] elements is not in the source, and libraries
    differ: one throws [std::length_error], one tries to allocate the
    words and throws [std::bad_alloc], one (its word count wraps around)
    hands back a vector.  It is an input of the model: for the requested
    size, the exception thrown, or [None] when the constructor returns. *)
Definition oversized_request : Type := Z -> option exception.

Definition library_returns : oversized_request := fun _ => None.
Definition library_throws (e : exception) : oversized_request :=
  fun _ => Some e.

Inductive outcome (A : Type) : Type :=
| Returns (a : A)
| Throws (e : exception)
| Undefined.

Arguments Returns {A} a.
Arguments Throws {A} e.
Arguments Undefined {A}.

End Machine.

Import Machine.

(* ===================================================================== *)
(** * The timing harness *)
(* ===================================================================== *)

Module Clock.

(** [std::chrono::high_resolution_clock]: what it shows is an input of
    the model.  [clock n] is the count of ticks that the [n]-th call of
    [now()] returns, and [period] is the length of a tick in seconds.
    The source asks nothing of the clock: where the library makes
    [high_resolution_clock] its steady clock a later reading is never
    smaller than an earlier one, where it makes it the system clock a
    reading can be smaller than the one before (the clock was set
    back). *)
Definition steady (clock : nat -> Z) : Prop :=
  forall n, clock n <= clock (S n).

(** [high_resolution_clock::is_steady], the library's own statement
    about its clock: where it is [true] every sequence of readings is
    steady, where it is [false] nothing is promised.  It is [true] in
    the library of MSVC, the compiler that line 1 names (the clock is
    [steady_clock] there), and [false] in libstdc++ (the clock is
    [system_clock] there). *)
Definition readings (is_steady : bool) (clock : nat -> Z) : Prop :=
  is_steady = true -> steady clock.

(** [chrono::duration<double>(end - start).count()]: a count of ticks in
    seconds.  The [double] is the one nearest to this rational; it has
    the same sign. *)
Definition seconds (period : Q) (ticks : Z) : Q := (inject_Z ticks * period)%Q.

(** Lines 20-26.  The state is the number of readings taken so far and
    the state of the program.  [f] stands for the call [f()]: it runs
    once, between the two readings, and reads no clock itself (no
    operation that this program measures does).  The difference of the
    readings is returned as it is. *)
Definition MeasureExecutionTime {State : Type} (clock : nat -> Z) (period : Q)
    (f : State -> State) (st : nat * State) : Q * (nat * State) :=
  let start := clock (fst st) in
  let after := f (snd st) in
  let end_ := clock (S (fst st)) in
  (seconds period (end_ - start), (S (S (fst st)), after)).

End Clock.

Import Clock.

(* ===================================================================== *)
(** * The parallel any-match engine *)
(* ===================================================================== *)

Module Engine.

Definition TARGET_VALUE : Z := 2.
Definition IsTarget (x : Z) : bool := x =? TARGET_VALUE.

(** [std::any_of(vec.begin() + first, vec.begin() + last, predicate)]. *)
Definition any_of_range (vec : list Z) (first last : Z)
    (predicate : Z -> bool) : bool :=
  existsb predicate
    (take (Z.to_nat (last - first)) (drop (Z.to_nat first) vec)).

(** What the lambda of line 44 captures by value. *)
Record worker : Type := mkWorker {
  w_start : Z;
  w_end : Z;
  w_slot : Z
}.

(** [size_t chunkSize = (dataSize + K - 1) / K;] with [K] converted to
    [size_t] by the usual arithmetic conversions. *)
Definition chunk_size (dataSize K : Z) : Z :=
  to_size_t (to_size_t (dataSize + to_size_t K) - 1) / to_size_t K.

(** One iteration of the loop of lines 39-47: the bounds of partition
    [i], or [None] when the iteration hits [continue]. *)
Definition partition (dataSize chunkSize i : Z) : option worker :=
  let start := to_size_t (to_size_t i * chunkSize) in
  let end_ := Z.min (to_size_t (start + chunkSize)) dataSize in
  if start >=? end_ then None
  else Some {| w_start := start; w_end := end_; w_slot := i |}.

(** The whole loop: the threads, in the order of [emplace_back]. *)
Definition spawn (dataSize K chunkSize : Z) : list worker :=
  omap (partition dataSize chunkSize) (seqZ 0 K).

(** ** The shared store and the worker threads

    [results] is a [std::vector<bool>]: slot [i] is bit [i mod VBITS] of
    word [i / VBITS].  The assignment [results[i] = b] goes through the
    proxy reference of [vector<bool>], which reads the word, sets or
    clears the bit, and writes the word back ([*p |= mask] or
    [*p &= ~mask]); nothing makes the two accesses one atomic step. *)

Definition slot_word (i : Z) : nat := Z.to_nat (i / VBITS).
Definition slot_mask (i : Z) : Z := Z.shiftl 1 (i mod VBITS).

(** [std::vector<bool> results(K, false)]. *)
Definition new_results (K : Z) : list Z :=
  replicate (Z.to_nat ((K + VBITS - 1) / VBITS)) 0.

Definition load_word (results : list Z) (w : nat) : Z :=
  default 0 (results !! w).

Definition read_slot (results : list Z) (i : Z) : bool :=
  Z.testbit (load_word results (slot_word i)) (i mod VBITS).

Definition assign_bit (word : Z) (i : Z) (b : bool) : Z :=
  if b then Z.lor word (slot_mask i)
  else Z.land word (Z.lnot (slot_mask i)).

(** A thread has not run yet, or holds the flag it computed and the word
    it read, or has written the word back and ended. *)
Inductive thread_state : Type :=
| Ready
| Loaded (found : bool) (word : Z)
| Finished.

Record machine : Type := mkMachine {
  results : list Z;
  threads : list (worker * thread_state)
}.

(** One step of thread [t] (its position in [threads]). *)
Definition step (vec : list Z) (predicate : Z -> bool)
    (t : nat) (m : machine) : machine :=
  match threads m !! t with
  | Some (w, Ready) =>
      let found := any_of_range vec (w_start w) (w_end w) predicate in
      let word := load_word (results m) (slot_word (w_slot w)) in
      {| results := results m;
         threads := <[t := (w, Loaded found word)]> (threads m) |}
  | Some (w, Loaded found word) =>
      {| results := <[slot_word (w_slot w) :=
                        assign_bit word (w_slot w) found]> (results m);
         threads := <[t := (w, Finished)]> (threads m) |}
  | Some (_, Finished) | None => m
  end.

(** The interleaving before the calling thread starts waiting: the
    schedule names, step after step, the thread that moves. *)
Definition run (vec : list Z) (predicate : Z -> bool)
    (schedule : list nat) (m : machine) : machine :=
  foldl (fun m t => step vec predicate t m) m schedule.

(** The loop of lines 49-53: [join] returns once the thread has ended, so
    whatever is left of each thread happens before the loop moves on. *)
Definition join_all (vec : list Z) (predicate : Z -> bool)
    (m : machine) : machine :=
  foldl (fun m t => step vec predicate t (step vec predicate t m))
        m (seq 0 (length (threads m))).

(** [any_of(results.begin(), results.end(), [](bool res) { return res; })]. *)
Definition any_result (results : list Z) (K : Z) : bool :=
  existsb (read_slot results) (seqZ 0 K).

(** [std::vector<bool> results(K, false)] (line 35): [K] is converted to
    [size_t]; a negative [K] becomes a size beyond [max_size()], and
    then the library decides; no line of the source looks at [K]. *)
Definition construct_results (library : oversized_request) (K : Z)
    : option exception :=
  if vector_bool_max_size <? to_size_t K then library (to_size_t K) else None.

(** Lines 31-55.  In order: the early return on the empty sequence
    (line 33); the construction of [results] with [K], converted to
    [size_t], as its size (line 35); the division by [K] (line 37); the
    loop that starts the threads (lines 39-47), which for a negative [K]
    ends at once, [i < K] being false; the threads, interleaved as
    [schedule] says, and the joins (lines 49-53); the final [any_of]
    (line 54), which finds a set slot only where a thread has set
    one. *)
Definition ParallelAnyOf (library : oversized_request) (schedule : list nat)
    (vec : list Z) (K : Z) (predicate : Z -> bool) : outcome bool :=
  let dataSize := Z.of_nat (length vec) in
  if dataSize =? 0 then Returns false
  else
    match construct_results library K with
    | Some e => Throws e
    | None =>
        if to_size_t K =? 0 then Undefined
        else
          let chunkSize := chunk_size dataSize K in
          let m0 := {| results := new_results K;
                       threads :=
                         (fun w => (w, Ready)) <$> spawn dataSize K chunkSize |} in
          let m := join_all vec predicate (run vec predicate schedule m0) in
          Returns (any_result (results m) K)
    end.

End Engine.

Import Engine.

(** ** Partitions, schedules and footprints: the vocabulary of the
    properties of the engine *)

Module Partitions.

(** The partitions as the specification words them, over the integers:
    [chunkSize = ceil(N / K)], [start = i * chunkSize],
    [end = min(start + chunkSize, N)], empty ones left out. *)
Definition ceil_div (n k : Z) : Z := (n + k - 1) / k.

Definition spec_partition (N chunkSize i : Z) : option worker :=
  let start := i * chunkSize in
  let end_ := Z.min (start + chunkSize) N in
  if start >=? end_ then None
  else Some {| w_start := start; w_end := end_; w_slot := i |}.

Definition spec_partitions (N K : Z) : list worker :=
  omap (spec_partition N (ceil_div N K)) (seqZ 0 K).

(** Index [x] lies in the half-open range of [w]. *)
Definition in_part (w : worker) (x : Z) : Prop := w_start w <= x < w_end w.

Definition part_length (w : worker) : Z := w_end w - w_start w.

Definition total_length (ws : list worker) : Z :=
  foldr (fun w acc => part_length w + acc) 0 ws.

(** [ws] is a run of non-empty ranges, each starting where the one
    before it ends, from [a] to [b]. *)
Fixpoint chain (a : Z) (ws : list worker) (b : Z) : Prop :=
  match ws with
  | [] => a = b
  | w :: ws' => w_start w = a /\ w_start w < w_end w /\ chain (w_end w) ws' b
  end.

(** A range that comes later in [ws] starts at or after the end of every
    range before it. *)
Definition ordered_by_start (ws : list worker) : Prop :=
  forall (i j : nat) (a b : worker),
    (i < j)%nat -> ws !! i = Some a -> ws !! j = Some b ->
    w_start a < w_end a <= w_start b.

Definition pairwise_disjoint (ws : list worker) : Prop :=
  forall (i j : nat) (a b : worker),
    i <> j -> ws !! i = Some a -> ws !! j = Some b ->
    forall x, ~ (in_part a x /\ in_part b x).

Definition covered_once (ws : list worker) (x : Z) : Prop :=
  exists i : nat,
    (exists w, ws !! i = Some w /\ in_part w x)
    /\ forall j w, ws !! j = Some w -> in_part w x -> j = i.

End Partitions.

Import Partitions.

Module Schedules.

(** A schedule in which the threads named by [order] run one at a time:
    each reads its word and writes it back before the next one moves.
    The threads that [order] leaves out run when they are joined. *)
Definition one_at_a_time (order : list nat) : list nat :=
  order ≫= (fun t => [t; t]).

Definition is_finished (st : thread_state) : bool :=
  match st with
  | Finished => true
  | Ready | Loaded _ _ => false
  end.

End Schedules.

Import Schedules.

Module Footprint.

(** The memory a worker thread touches while it runs the lambda of
    lines 44-46: it reads its elements of [vec], and it reads and writes
    the word of [results] that holds its slot (see [step]). *)
Inductive location : Type :=
| Vec_element (i : Z)
| Results_word (w : nat).

Definition reads (w : worker) : list location :=
  Results_word (slot_word (w_slot w))
  :: (Vec_element <$> seqZ (w_start w) (w_end w - w_start w)).

Definition writes (w : worker) : list location :=
  [Results_word (slot_word (w_slot w))].

(** Two threads conflict when one writes a location the other reads or
    writes.  The worker threads share no lock and use no atomic object:
    a conflict between two of them is a data race. *)
Definition conflict (a b : worker) : Prop :=
  exists l, l ∈ writes a /\ (l ∈ writes b \/ l ∈ reads b).

Definition data_race (ws : list worker) : Prop :=
  exists (i j : nat) (a b : worker),
    i <> j /\ ws !! i = Some a /\ ws !! j = Some b /\ conflict a b.

End Footprint.

Import Footprint.

(* ===================================================================== *)
(** * The data generator *)
(* ===================================================================== *)

Module Generator.

(** [Random::engine()] seeds a Mersenne twister from the random device;
    what the program sees of it is the sequence of values the
    distribution yields.  [draws] is that sequence (a prefix of it), and
    every function returns what is left; [None] says the prefix ended
    before the function did. *)

(** The [do ... while (x == TARGET_VALUE)] of lines 62-64. *)
Fixpoint draw_non_target (draws : list Z) : option (Z * list Z) :=
  match draws with
  | [] => None
  | x :: rest =>
      if x =? TARGET_VALUE then draw_non_target rest else Some (x, rest)
  end.

(** The range-for of line 61: every element is overwritten in turn. *)
Fixpoint FillRandomNonTarget (vec : list Z) (draws : list Z)
    : option (list Z * list Z) :=
  match vec with
  | [] => Some ([], draws)
  | _ :: vec' =>
      match draw_non_target draws with
      | None => None
      | Some (x, rest) =>
          match FillRandomNonTarget vec' rest with
          | None => None
          | Some (filled, rest') => Some (x :: filled, rest')
          end
      end
  end.

(** [vector<int> vec(dataSize);] followed by the fill and by what
    [place] does to the filled vector. *)
Definition initialize (place : list Z -> list Z) (dataSize : Z)
    (draws : list Z) : option (outcome (list Z) * list Z) :=
  if vector_int_max_size <? dataSize then Some (Throws length_error, draws)
  else
    match FillRandomNonTarget (replicate (Z.to_nat dataSize) 0) draws with
    | None => None
    | Some (vec, rest) => Some (Returns (place vec), rest)
    end.

Definition InitializeWorstCase : Z -> list Z -> option (outcome (list Z) * list Z) :=
  initialize (fun vec => vec).

Definition InitializeBestCase (dataSize : Z)
    : list Z -> option (outcome (list Z) * list Z) :=
  initialize
    (fun vec => if 0 <? dataSize then <[0%nat := TARGET_VALUE]> vec else vec)
    dataSize.

Definition InitializeAverageCase (dataSize : Z)
    : list Z -> option (outcome (list Z) * list Z) :=
  initialize
    (fun vec =>
       if 0 <? dataSize then <[Z.to_nat (dataSize / 2) := TARGET_VALUE]> vec
       else vec)
    dataSize.

End Generator.

Import Generator.

Module Scenario.

(** How many of the draws are not the target: the fill needs one of them
    for every element. *)
Definition non_targets (draws : list Z) : nat :=
  length (filter (fun x => x <> TARGET_VALUE) draws).

(** The target sits at index [p] of [vec] and nowhere else. *)
Definition target_only_at (p : nat) (vec : list Z) : Prop :=
  forall i, vec !! i = Some TARGET_VALUE <-> i = p.

Definition target_free (vec : list Z) : Prop :=
  forall i, vec !! i <> Some TARGET_VALUE.

End Scenario.

Import Scenario.

(* ===================================================================== *)
(** * The K-sweep of [AnalyzePerformanceForCase] *)
(* ===================================================================== *)

Module Sweep.

(** A measured duration is a finite [double]; finite doubles are rational
    numbers and [<] on them is the order of the rationals. *)
Definition DBL_MAX : Q := ((2 ^ 1024 - 2 ^ 971) # 1)%Q.

(** [std::min(a, b)] is [(b < a) ? b : a]. *)
Definition dmin (a b : Q) : Q := if Qlt_le_dec b a then b else a.

(** [std::sort] on [int]s. *)
Definition sort (l : list Z) : list Z := merge_sort Z.le l.

(** [std::unique] followed by [erase]: of every run of equal neighbours
    the first one stays. *)
Fixpoint unique_from (x : Z) (l : list Z) : list Z :=
  match l with
  | [] => [x]
  | y :: l' => if y =? x then unique_from x l' else x :: unique_from y l'
  end.

Definition unique (l : list Z) : list Z :=
  match l with
  | [] => []
  | x :: l' => unique_from x l'
  end.

(** Lines 91 and 107-114. *)
Definition K_values (maxThreads : Z) : list Z :=
  let maxK := Z.max (to_int (maxThreads * 4)) 8 in
  let pushed := [1] ++ seqZ 2 (maxThreads - 1) in
  let pushed :=
    if 1 <? maxThreads then pushed ++ [to_int (maxThreads * 2); maxK]
    else pushed in
  unique (sort pushed).

(** [MeasureExecutionTime] reads the clock around the call; the durations
    it returns are an input of the model: [measure n] is what its [n]-th
    call returns (counted from 0 within one [AnalyzePerformanceForCase]). *)
Record sweep_state : Type := mkSweep {
  bestTime : Q;
  bestK : Z;
  calls : nat;
  table : list (Z * Q)
}.

(** Lines 125-129. *)
Definition best_of_3 (measure : nat -> Q) (calls : nat) : Q :=
  foldl (fun minTime run => dmin minTime (measure (calls + run)%nat))
        DBL_MAX (seq 0 3).

(** The test of line 123. *)
Definition skipped (dataSize maxThreads K : Z) : bool :=
  (to_size_t K >? dataSize) && (K >? to_int (maxThreads * 2)).

(** One iteration of the loop of lines 122-137; [table] collects the
    lines [K=...: minTime] it prints. *)
Definition sweep_step (measure : nat -> Q) (dataSize maxThreads : Z)
    (s : sweep_state) (K : Z) : sweep_state :=
  if skipped dataSize maxThreads K then s
  else
    let minTime := best_of_3 measure (calls s) in
    let better := if Qlt_le_dec minTime (bestTime s) then true else false in
    {| bestTime := if better then minTime else bestTime s;
       bestK := if better then K else bestK s;
       calls := (calls s + 3)%nat;
       table := table s ++ [(K, minTime)] |}.

(** The four reference timings of lines 95-105 come first. *)
Definition sweep_start : sweep_state :=
  {| bestTime := DBL_MAX; bestK := 0; calls := 4; table := [] |}.

Definition K_sweep (measure : nat -> Q) (dataSize maxThreads : Z)
    : sweep_state :=
  foldl (sweep_step measure dataSize maxThreads) sweep_start
        (K_values maxThreads).

End Sweep.

Import Sweep.

Module Minimum.

(** [m] is the minimum of the durations [ds]: one of them, and no
    greater than any of them. *)
Definition minimum_of (m : Q) (ds : list Q) : Prop :=
  m ∈ ds /\ Forall (fun d => (m <= d)%Q) ds.

(** The three durations measured for the [j]-th candidate that is
    evaluated. *)
Definition runs_of (measure : nat -> Q) (j : nat) : list Q :=
  [measure (4 + 3 * j)%nat; measure (4 + 3 * j + 1)%nat;
   measure (4 + 3 * j + 2)%nat].

End Minimum.

Import Minimum.

(* ===================================================================== *)
(** * More vocabulary: the shape of the threads *)
(* ===================================================================== *)

Module Workers.

(** The thread of slot [i] when the chunk size is [c]. *)
Definition nth_worker (N c i : Z) : worker :=
  {| w_start := i * c; w_end := Z.min (i * c + c) N; w_slot := i |}.

(** How many threads a call starts: the chunks of size
    [ceil (N / K)] it takes to hold [N] elements. *)
Definition worker_count (N K : Z) : Z := ceil_div N (ceil_div N K).

End Workers.

Import Workers.

Module Ties.

(** The best row is the first row whose time is the least: the rows
    before it are strictly slower.  Before any row, the best time and
    the best [K] are the values they start from. *)
Definition first_minimum (s : sweep_state) : Prop :=
  (table s = [] /\ bestTime s = DBL_MAX /\ bestK s = 0)
  \/ exists i : nat,
       table s !! i = Some (bestK s, bestTime s)
       /\ (forall j K t, table s !! j = Some (K, t) -> (bestTime s <= t)%Q)
       /\ (forall j K t, (j < i)%nat -> table s !! j = Some (K, t) ->
             (bestTime s < t)%Q).

End Ties.

Import Ties.

(* ===================================================================== *)
(** * The entry point *)
(* ===================================================================== *)

Module Main.

(** The case names of lines 159, 163 and 167. *)
Inductive scenario : Type :=
| Worst_Case
| Best_Case
| Average_Case.

(** An initializer, then what follows it; an exception that leaves the
    initializer leaves [main] as well. *)
Definition then_with {A : Type} (r : option (outcome (list Z) * list Z))
    (k : list Z -> list Z -> option (outcome A * list Z))
    : option (outcome A * list Z) :=
  match r with
  | None => None
  | Some (Returns vec, rest) => k vec rest
  | Some (Throws e, rest) => Some (Throws e, rest)
  | Some (Undefined, rest) => Some (Undefined, rest)
  end.

(** Lines 157-167: the three vectors are filled one after the other
    from the one engine of [Random::engine()], each to be analysed under
    its name.  [AnalyzePerformanceForCase] draws nothing. *)
Definition scenarios (dataSize : Z) (draws : list Z)
    : option (outcome (list (scenario * list Z)) * list Z) :=
  then_with (InitializeWorstCase dataSize draws) (fun vec_worst draws =>
  then_with (InitializeBestCase dataSize draws) (fun vec_best draws =>
  then_with (InitializeAverageCase dataSize draws) (fun vec_avg draws =>
  Some (Returns [(Worst_Case, vec_worst); (Best_Case, vec_best);
                 (Average_Case, vec_avg)], draws)))).

(** Line 155. *)
Definition dataSize : Z := 50000000.

(** [main], as far as its exit status and the vectors it analyses go:
    status [1] and nothing else when [results.txt] cannot be opened
    (lines 145-149), status [0] after the three scenarios otherwise. *)
Definition main (file_opens : bool) (draws : list Z)
    : option (outcome (Z * list (scenario * list Z)) * list Z) :=
  if file_opens then
    match scenarios dataSize draws with
    | None => None
    | Some (Returns analysed, rest) => Some (Returns (0, analysed), rest)
    | Some (Throws e, rest) => Some (Throws e, rest)
    | Some (Undefined, rest) => Some (Undefined, rest)
    end
  else Some (Returns (1, []), draws).

End Main.

Import Main.

(* ===================================================================== *)
(** * Executions of the specification's examples *)
(* ===================================================================== *)

(** The properties named in section 8 of the specification, on one
    execution in which the threads run one after the other. *)
Example anyof_spec_example (library : oversized_request) :
  ParallelAnyOf library [] [1; 3; 1; 3; 2; 1] 2 IsTarget = Returns true.
Proof. reflexivity. Qed.

Example anyof_no_target (library : oversized_request) :
  Forall (fun K => ParallelAnyOf library [] [1; 3; 1; 3; 3; 1; 1; 3; 1; 1] K
                     IsTarget
                   = Returns false) [1; 2; 3; 4].
Proof. repeat constructor. Qed.

Example K_values_4 : K_values 4 = [1; 2; 3; 4; 8; 16].
Proof. reflexivity. Qed.

Example best_of_3_example :
  best_of_3 (fun n => nth n [0.05; 0.03; 0.04]%Q 0%Q) 0 = 0.03%Q.
Proof. reflexivity. Qed.

Example average_case_example :
  InitializeAverageCase 5 [1; 2; 3; 3; 2; 2; 1; 1; 3]
  = Some (Returns [1; 3; 2; 1; 1], [3]).
Proof. reflexivity. Qed.

(* ===================================================================== *)
(** * Arithmetic of the machine types *)
(* ===================================================================== *)

Section MachineFacts.

Lemma to_size_t_small (x : Z) : 0 <= x < SIZE_MODULUS -> to_size_t x = x.
Proof. intros H. unfold to_size_t. now apply Z.mod_small. Qed.

Lemma to_size_t_negative (x : Z) :
  - SIZE_MODULUS <= x < 0 -> to_size_t x = x + SIZE_MODULUS.
Proof.
  intros H. unfold to_size_t.
  symmetry. apply (Z.mod_unique_pos _ _ (-1)); lia.
Qed.

Lemma to_int_small (x : Z) : is_int x -> to_int x = x.
Proof.
  unfold is_int, INT_MIN, INT_MAX, to_int. intros H.
  rewrite Z.mod_small; lia.
Qed.

Lemma size_modulus_value : SIZE_MODULUS = 18446744073709551616.
Proof. reflexivity. Qed.

End MachineFacts.

(* ===================================================================== *)
(** * Calls with an empty sequence or with K <= 0 *)
(* ===================================================================== *)

(** C10.  The test of line 33 comes before anything reads [K]: on the
    empty sequence the call returns [false] for every [K], zero and
    negative values included, under every schedule and whatever the
    library does with oversized requests; it neither throws nor reaches
    the division. *)
Theorem ParallelAnyOf_empty (library : oversized_request) (schedule : list nat)
    (K : Z) (predicate : Z -> bool) :
  ParallelAnyOf library schedule [] K predicate = Returns false.
Proof. reflexivity. Qed.

Section NonPositiveK.

Variables (library : oversized_request) (schedule : list nat).
Variables (vec : list Z) (K : Z) (predicate : Z -> bool).

(** No thread: nothing moves, whatever the schedule. *)
Lemma run_no_thread (m : machine) :
  threads m = [] -> run vec predicate schedule m = m.
Proof.
  intros Hnil. unfold run. induction schedule as [| t l IH]; [reflexivity |].
  simpl. unfold step at 2. rewrite Hnil. exact IH.
Qed.

(** A negative [K] on a non-empty sequence: the size asked of [results]
    is beyond [max_size()]; when the constructor returns all the same,
    the loop of line 39 does not run once, no thread is started, and
    [any_of] finds no slot set. *)
Lemma ParallelAnyOf_negative_K :
  vec <> [] -> INT_MIN <= K < 0 ->
  vector_bool_max_size < to_size_t K
  /\ ParallelAnyOf library schedule vec K predicate
     = match library (to_size_t K) with
       | Some e => Throws e
       | None => Returns false
       end.
Proof.
  intros Hvec [Hlo Hhi].
  assert (Hsize : (Z.of_nat (length vec) =? 0) = false).
  { apply Z.eqb_neq. destruct vec; [congruence | simpl; lia]. }
  assert (Hbig : vector_bool_max_size < to_size_t K).
  { rewrite to_size_t_negative
      by (rewrite size_modulus_value; unfold INT_MIN in Hlo; lia).
    rewrite size_modulus_value. unfold vector_bool_max_size, INT_MIN in *. lia. }
  split; [exact Hbig |].
  unfold ParallelAnyOf, construct_results. rewrite Hsize.
  rewrite (proj2 (Z.ltb_lt _ _) Hbig).
  destruct (library (to_size_t K)); [reflexivity |].
  destruct (Z.eqb_spec (to_size_t K) 0) as [H0 | _];
    [unfold vector_bool_max_size in Hbig; lia |].
  unfold spawn, any_result. rewrite !seqZ_nil by lia. reflexivity.
Qed.

Lemma ParallelAnyOf_zero_K :
  vec <> [] -> ParallelAnyOf library schedule vec 0 predicate = Undefined.
Proof.
  intros Hvec. unfold ParallelAnyOf.
  destruct (Z.eqb_spec (Z.of_nat (length vec)) 0) as [H0 | _];
    [destruct vec; [congruence | simpl in H0; lia] |].
  reflexivity.
Qed.

End NonPositiveK.

(** C3, as stated, fails, and not only on the empty sequence.  With
    [K = 0] and the empty sequence the call is an ordinary return of
    [false].  With [K = -3] and the sequence [1; 2], where the library
    hands back the vector it was asked for, the loop runs zero times and
    the call returns [false] as well.  With [K = 0] and the sequence
    [1; 2] the call reaches the division by zero; nothing is signalled. *)
Lemma ParallelAnyOf_nonpositive_K_unchecked :
  ParallelAnyOf library_returns [] [] 0 IsTarget = Returns false
  /\ ParallelAnyOf library_returns [] [1; 2] (-3) IsTarget = Returns false
  /\ ParallelAnyOf library_returns [] [1; 2] 0 IsTarget = Undefined
  /\ ~ (exists e, ParallelAnyOf library_returns [] [] 0 IsTarget = Throws e).
Proof.
  split; [reflexivity |]. split; [reflexivity |]. split; [reflexivity |].
  intros [e He]. discriminate He.
Qed.

(** C3, amended.  No line checks [K]; what a call with [K <= 0] does is
    what the lines it reaches do.  On the empty sequence it returns
    [false].  On a non-empty sequence, [K = 0] reaches the division by
    zero of line 37, and a negative [K] asks [results] for a size beyond
    [max_size()]: the call throws what the library throws for that
    request and, when the library returns, runs the loop zero times and
    returns [false]. *)
Theorem ParallelAnyOf_nonpositive_K (library : oversized_request)
    (schedule : list nat) (vec : list Z) (K : Z) (predicate : Z -> bool) :
  INT_MIN <= K <= 0 ->
  ParallelAnyOf library schedule vec K predicate
  = match vec with
    | [] => Returns false
    | _ :: _ =>
        if K =? 0 then Undefined
        else match library (to_size_t K) with
             | Some e => Throws e
             | None => Returns false
             end
    end.
Proof.
  intros [Hlo Hhi]. destruct vec as [| x l] eqn:E; [reflexivity |].
  destruct (Z.eqb_spec K 0) as [-> | Hne].
  - apply ParallelAnyOf_zero_K. discriminate.
  - apply ParallelAnyOf_negative_K; [discriminate | lia].
Qed.

Lemma ParallelAnyOf_nonpositive_K_witness :
  ParallelAnyOf library_returns [] [1; 2] 0 IsTarget = Undefined
  /\ ParallelAnyOf (library_throws length_error) [0; 1]%nat [1; 2] 0 IsTarget
     = Undefined
  /\ ParallelAnyOf library_returns [] [1; 2] (-3) IsTarget = Returns false
  /\ ParallelAnyOf (library_throws bad_alloc) [] [1; 2] INT_MIN IsTarget
     = Throws bad_alloc
  /\ ParallelAnyOf (library_throws length_error) [] [1; 2] (-3) IsTarget
     = Throws length_error
  /\ ParallelAnyOf (library_throws length_error) [] [] (-3) IsTarget
     = Returns false.
Proof.
  assert (H0 : INT_MIN <= 0 <= 0) by (unfold INT_MIN; lia).
  assert (H3 : INT_MIN <= -3 <= 0) by (unfold INT_MIN; lia).
  assert (Hmin : INT_MIN <= INT_MIN <= 0) by (unfold INT_MIN; lia).
  split; [exact (ParallelAnyOf_nonpositive_K library_returns [] [1; 2] 0 IsTarget H0) |].
  split; [exact (ParallelAnyOf_nonpositive_K (library_throws length_error)
                   [0; 1]%nat [1; 2] 0 IsTarget H0) |].
  split; [exact (ParallelAnyOf_nonpositive_K library_returns [] [1; 2] (-3) IsTarget H3) |].
  split; [exact (ParallelAnyOf_nonpositive_K (library_throws bad_alloc)
                   [] [1; 2] INT_MIN IsTarget Hmin) |].
  split; [exact (ParallelAnyOf_nonpositive_K (library_throws length_error)
                   [] [1; 2] (-3) IsTarget H3) |].
  exact (ParallelAnyOf_nonpositive_K (library_throws length_error)
           [] [] (-3) IsTarget H3).
Defined.

(* ===================================================================== *)
(** * The measured duration *)
(* ===================================================================== *)

Section Durations.

Variable period : Q.
Hypothesis period_positive : (0 < period)%Q.

Lemma seconds_nonneg (ticks : Z) : (0 <= seconds period ticks)%Q <-> 0 <= ticks.
Proof.
  unfold seconds. split.
  - intros H. rewrite Zle_Qle. change (inject_Z 0) with 0%Q.
    apply (Qmult_lt_0_le_reg_r _ _ period period_positive).
    rewrite Qmult_0_l. exact H.
  - intros H. apply Qmult_le_0_compat.
    + change 0%Q with (inject_Z 0). rewrite <- Zle_Qle. exact H.
    + apply Qlt_le_weak. exact period_positive.
Qed.

Lemma seconds_negative (ticks : Z) : (seconds period ticks < 0)%Q <-> ticks < 0.
Proof.
  split.
  - intros H. apply Z.nle_gt. intros Hge.
    exact (Qlt_not_le _ _ H (proj2 (seconds_nonneg ticks) Hge)).
  - intros H. apply Qnot_le_lt. intros Hge.
    pose proof (proj1 (seconds_nonneg ticks) Hge). lia.
Qed.

End Durations.

(** C9, as stated, fails: nothing in [MeasureExecutionTime] makes the
    duration non-negative.  A clock that shows 5000 ticks before the
    operation and 3000 after it (it was set back in between) gives a
    negative duration; a library whose [high_resolution_clock] is not
    steady allows these readings. *)
Lemma MeasureExecutionTime_negative :
  let clock := fun n : nat => nth n [5000; 3000] 0 in
  (fst (MeasureExecutionTime clock (1 # 1000000000) (fun s : unit => s) (0%nat, tt))
   < 0)%Q
  /\ readings false clock
  /\ ~ steady clock.
Proof.
  split; [reflexivity |]. split; [intros H; discriminate H |].
  intros H. specialize (H 0%nat). simpl in H. lia.
Qed.

(** C9, amended.  [MeasureExecutionTime] reads the clock once before and
    once after the operation, runs the operation once in between, and
    returns the difference of the two readings in seconds, as it is: the
    duration is non-negative exactly when the second reading is not
    earlier than the first, negative otherwise; it is therefore always
    non-negative where the library's [high_resolution_clock] is steady,
    and only there is it promised to be. *)
Theorem MeasureExecutionTime_duration {State : Type} (clock : nat -> Z)
    (period : Q) (f : State -> State) (now : nat) (s : State) :
  (0 < period)%Q ->
  let r := MeasureExecutionTime clock period f (now, s) in
  snd r = (S (S now), f s)
  /\ fst r = seconds period (clock (S now) - clock now)
  /\ ((0 <= fst r)%Q <-> clock now <= clock (S now))
  /\ ((fst r < 0)%Q <-> clock (S now) < clock now)
  /\ (steady clock -> (0 <= fst r)%Q)
  /\ (forall is_steady, readings is_steady clock -> is_steady = true ->
        (0 <= fst r)%Q).
Proof.
  intros Hperiod r. unfold r, MeasureExecutionTime. cbn [fst snd].
  assert (Hsteady : steady clock ->
            (0 <= seconds period (clock (S now) - clock now))%Q).
  { intros Hsteady. apply (seconds_nonneg period Hperiod).
    specialize (Hsteady now). lia. }
  split; [reflexivity |]. split; [reflexivity |].
  split; [rewrite (seconds_nonneg period Hperiod); lia |].
  split; [rewrite (seconds_negative period Hperiod); lia |].
  split; [exact Hsteady |].
  intros is_steady Hreadings His. exact (Hsteady (Hreadings His)).
Qed.

Lemma MeasureExecutionTime_duration_witness :
  let clock := fun n : nat => 3000 + 2000 * Z.of_nat n in
  let r := MeasureExecutionTime clock (1 # 1000000000) (fun s : nat => S s)
             (2%nat, 7%nat) in
  snd r = (4%nat, 8%nat)
  /\ fst r = seconds (1 # 1000000000) (clock 3%nat - clock 2%nat)
  /\ ((0 <= fst r)%Q <-> clock 2%nat <= clock 3%nat)
  /\ ((fst r < 0)%Q <-> clock 3%nat < clock 2%nat)
  /\ (steady clock -> (0 <= fst r)%Q)
  /\ (forall is_steady, readings is_steady clock -> is_steady = true ->
        (0 <= fst r)%Q).
Proof.
  apply (MeasureExecutionTime_duration
           (fun n : nat => 3000 + 2000 * Z.of_nat n)
           (1 # 1000000000) (fun s : nat => S s) 2%nat 7%nat).
  reflexivity.
Defined.

(** The clock of the witness is steady, and its duration is 2000 ticks
    of a nanosecond. *)
Example MeasureExecutionTime_steady_run :
  let clock := fun n : nat => 3000 + 2000 * Z.of_nat n in
  steady clock
  /\ readings true clock
  /\ (fst (MeasureExecutionTime clock (1 # 1000000000) (fun s : nat => S s)
            (2%nat, 7%nat)) == 2 # 1000000)%Q.
Proof.
  assert (H : steady (fun n : nat => 3000 + 2000 * Z.of_nat n)).
  { intros n. lia. }
  split; [exact H |]. split; [intros _; exact H | reflexivity].
Qed.

(* ===================================================================== *)
(** * Partition construction *)
(* ===================================================================== *)

Section PartitionFacts.

Variables N K : Z.
Hypothesis N_range : 0 <= N <= vector_int_max_size.
Hypothesis K_range : 1 <= K <= INT_MAX.

Let c := ceil_div N K.

Lemma ceil_div_bounds : 0 <= c /\ N <= K * c /\ K * c <= N + K - 1.
Proof.
  unfold c, ceil_div.
  pose proof (Z.mul_div_le (N + K - 1) K ltac:(lia)).
  pose proof (Z.mul_succ_div_gt (N + K - 1) K ltac:(lia)).
  assert (0 <= (N + K - 1) / K) by (apply Z.div_pos; lia).
  lia.
Qed.

Lemma chunk_size_exact : chunk_size N K = c.
Proof.
  unfold chunk_size, c, ceil_div.
  unfold vector_int_max_size, INT_MAX in *.
  rewrite (to_size_t_small K) by (rewrite size_modulus_value; lia).
  rewrite (to_size_t_small (N + K)) by (rewrite size_modulus_value; lia).
  rewrite to_size_t_small by (rewrite size_modulus_value; lia).
  reflexivity.
Qed.

Lemma partition_exact (i : Z) :
  0 <= i < K -> partition N c i = spec_partition N c i.
Proof.
  intros Hi. destruct ceil_div_bounds as (Hc0 & Hlo & Hhi).
  unfold vector_int_max_size, INT_MAX in *.
  assert (Hic : 0 <= i * c /\ i * c + c <= K * c) by nia.
  unfold partition, spec_partition.
  rewrite (to_size_t_small i) by (rewrite size_modulus_value; lia).
  rewrite (to_size_t_small (i * c)) by (rewrite size_modulus_value; lia).
  rewrite (to_size_t_small (i * c + c)) by (rewrite size_modulus_value; lia).
  reflexivity.
Qed.

Lemma spawn_exact : spawn N K (chunk_size N K) = spec_partitions N K.
Proof.
  rewrite chunk_size_exact. unfold spawn, spec_partitions. fold c.
  assert (H : Forall (fun i => 0 <= i < K) (seqZ 0 K)).
  { apply Forall_seqZ. lia. }
  induction H as [| i l Hi _ IH]; [reflexivity |].
  cbn. rewrite (partition_exact i Hi), IH. reflexivity.
Qed.

End PartitionFacts.

Section ChainFacts.

Implicit Types (ws : list worker) (w : worker).

Lemma chain_le a ws b : chain a ws b -> a <= b.
Proof.
  revert a. induction ws as [| w ws IH]; simpl; intros a H.
  - lia.
  - destruct H as (Hs & Hlt & Hrest). apply IH in Hrest. lia.
Qed.

Lemma chain_total_length a ws b : chain a ws b -> total_length ws = b - a.
Proof.
  revert a. induction ws as [| w ws IH]; simpl; intros a H.
  - lia.
  - destruct H as (Hs & Hlt & Hrest). rewrite (IH _ Hrest).
    unfold part_length. lia.
Qed.

(** Every range of a chain lies between its ends, and a later range
    starts no earlier than an earlier one ends. *)
Lemma chain_bounds a ws b i w :
  chain a ws b -> ws !! i = Some w -> a <= w_start w /\ w_start w < w_end w <= b.
Proof.
  revert a i. induction ws as [| v ws IH]; intros a i H Hi; [discriminate |].
  destruct H as (Hs & Hlt & Hrest). pose proof (chain_le _ _ _ Hrest).
  destruct i as [| i]; simpl in Hi.
  - injection Hi as <-. lia.
  - destruct (IH _ _ Hrest Hi). lia.
Qed.

Lemma chain_ordered a ws b i j wi wj :
  chain a ws b -> (i < j)%nat -> ws !! i = Some wi -> ws !! j = Some wj ->
  w_end wi <= w_start wj.
Proof.
  revert a i j. induction ws as [| v ws IH]; intros a i j H Hij Hi Hj;
    [discriminate |].
  destruct H as (Hs & Hlt & Hrest).
  destruct j as [| j]; [lia |]. simpl in Hj.
  destruct i as [| i]; simpl in Hi.
  - injection Hi as <-. destruct (chain_bounds _ _ _ _ _ Hrest Hj). lia.
  - apply (IH _ i j Hrest); [lia | assumption | assumption].
Qed.

Lemma chain_ordered_by_start a ws b : chain a ws b -> ordered_by_start ws.
Proof.
  intros H i j wi wj Hij Hi Hj.
  pose proof (chain_ordered _ _ _ _ _ _ _ H Hij Hi Hj).
  destruct (chain_bounds _ _ _ _ _ H Hi). lia.
Qed.

Lemma chain_disjoint a ws b : chain a ws b -> pairwise_disjoint ws.
Proof.
  intros H i j wi wj Hij Hi Hj x [[? ?] [? ?]].
  destruct (Nat.lt_total i j) as [Hlt | [Heq | Hgt]]; [| congruence |].
  - pose proof (chain_ordered _ _ _ _ _ _ _ H Hlt Hi Hj). lia.
  - pose proof (chain_ordered _ _ _ _ _ _ _ H Hgt Hj Hi). lia.
Qed.

Lemma chain_covers a ws b x :
  chain a ws b -> a <= x < b -> exists i w, ws !! i = Some w /\ in_part w x.
Proof.
  revert a. induction ws as [| v ws IH]; simpl; intros a H Hx; [lia |].
  destruct H as (Hs & Hlt & Hrest).
  destruct (Z_lt_le_dec x (w_end v)) as [Hin | Hout].
  - exists 0%nat, v. split; [reflexivity | unfold in_part; lia].
  - destruct (IH _ Hrest ltac:(lia)) as (i & w & Hi & Hw).
    exists (S i), w. split; assumption.
Qed.

Lemma chain_covered_once a ws b x :
  chain a ws b -> a <= x < b -> covered_once ws x.
Proof.
  intros H Hx. destruct (chain_covers _ _ _ _ H Hx) as (i & w & Hi & Hw).
  exists i. split; [eauto |].
  intros j v Hj Hv. destruct (Nat.eq_dec j i) as [| Hne]; [assumption |].
  exfalso. exact (chain_disjoint _ _ _ H j i v w Hne Hj Hi x (conj Hv Hw)).
Qed.

(** The loop of the specification builds a chain: after the indices
    [a, a + 1, ..., a + n - 1] the ranges reach from [min (a c) N] to
    [min ((a + n) c) N]. *)
Lemma spec_partitions_chain (N c : Z) (n : nat) (a : Z) :
  0 <= N -> 0 <= c -> 0 <= a ->
  chain (Z.min (a * c) N)
        (omap (spec_partition N c) (seqZ a (Z.of_nat n)))
        (Z.min ((a + Z.of_nat n) * c) N).
Proof.
  intros HN Hc. revert a. induction n as [| n IH]; intros a Ha.
  - simpl. f_equal. lia.
  - rewrite seqZ_cons by lia.
    replace (Z.pred (Z.of_nat (S n))) with (Z.of_nat n) by lia.
    specialize (IH (Z.succ a) ltac:(lia)).
    replace ((Z.succ a + Z.of_nat n) * c) with ((a + Z.of_nat (S n)) * c)
      in IH by lia.
    cbn [omap list_omap]. unfold spec_partition at 1.
    destruct (Z.geb_spec (a * c) (Z.min (a * c + c) N)) as [Hge | Hlt].
    + replace (Z.min (a * c) N) with (Z.min (Z.succ a * c) N) by lia.
      exact IH.
    + cbn [chain w_start w_end].
      replace (Z.min (a * c + c) N) with (Z.min (Z.succ a * c) N) by lia.
      repeat split; [lia | lia | exact IH].
Qed.

End ChainFacts.

(** The loop of lines 39-47 builds a chain from [0] to [N]. *)
Lemma spawn_chain (N K : Z) :
  0 <= N <= vector_int_max_size -> 1 <= K <= INT_MAX ->
  chain 0 (spawn N K (chunk_size N K)) N.
Proof.
  intros HN HK. rewrite (spawn_exact N K HN HK). unfold spec_partitions.
  destruct (ceil_div_bounds N K HN HK) as (Hc0 & Hlo & Hhi).
  pose proof (spec_partitions_chain N (ceil_div N K) (Z.to_nat K) 0
                ltac:(lia) Hc0 ltac:(lia)) as H.
  rewrite Z2Nat.id in H by lia.
  replace (Z.min (0 * ceil_div N K) N) with 0 in H by lia.
  replace (Z.min ((0 + K) * ceil_div N K) N) with N in H by lia.
  exact H.
Qed.

(** [ceil_div] is the ceiling of the quotient: the least [c] with
    [N <= K c]. *)
Lemma ceil_div_least (N K c : Z) :
  0 < K -> N <= K * c -> ceil_div N K <= c.
Proof.
  intros HK Hc. unfold ceil_div.
  apply Z.lt_succ_r, Z.div_lt_upper_bound; [lia | nia].
Qed.

(** C2.  For a sequence length [N] and a fan-out [K >= 1] (any length a
    vector can have, any positive [int]), the loop of lines 37-42
    computes, without wrap-around, the partitions of the specification
    ([chunkSize = ceil(N / K)], [start = i * chunkSize],
    [end = min(start + chunkSize, N)], empty ones dropped), and these
    come out in the order of their start, are contiguous from [0] to
    [N], have lengths that add up to [N], are pairwise disjoint, and
    hold every index of [[0, N)] exactly once. *)
Theorem partitions_cover_exactly_once (N K : Z) :
  0 <= N <= vector_int_max_size -> 1 <= K <= INT_MAX ->
  let ws := spawn N K (chunk_size N K) in
  ws = spec_partitions N K
  /\ ordered_by_start ws
  /\ chain 0 ws N
  /\ total_length ws = N
  /\ pairwise_disjoint ws
  /\ (forall x, 0 <= x < N -> covered_once ws x).
Proof.
  intros HN HK ws.
  assert (Hspec : ws = spec_partitions N K) by (apply spawn_exact; assumption).
  assert (Hchain : chain 0 ws N) by (apply spawn_chain; assumption).
  split; [exact Hspec |].
  split; [exact (chain_ordered_by_start _ _ _ Hchain) |].
  split; [exact Hchain |].
  split; [| split].
  - rewrite (chain_total_length _ _ _ Hchain). lia.
  - exact (chain_disjoint _ _ _ Hchain).
  - intros x Hx. exact (chain_covered_once _ _ _ _ Hchain Hx).
Qed.

Lemma partitions_cover_exactly_once_witness :
  let ws := spawn 10 4 (chunk_size 10 4) in
  ws = spec_partitions 10 4
  /\ ordered_by_start ws
  /\ chain 0 ws 10
  /\ total_length ws = 10
  /\ pairwise_disjoint ws
  /\ (forall x, 0 <= x < 10 -> covered_once ws x).
Proof.
  apply (partitions_cover_exactly_once 10 4).
  - unfold vector_int_max_size. lia.
  - unfold INT_MAX. lia.
Defined.

Example partitions_more_workers_than_elements :
  spawn 3 8 (chunk_size 3 8)
  = [mkWorker 0 1 0; mkWorker 1 2 1; mkWorker 2 3 2].
Proof. reflexivity. Qed.

(* ===================================================================== *)
(** * The result slots, bit by bit *)
(* ===================================================================== *)

Section ResultSlots.

Lemma slot_word_eq (i j : Z) :
  0 <= i -> 0 <= j ->
  slot_word i = slot_word j -> i mod VBITS = j mod VBITS -> i = j.
Proof.
  unfold slot_word, VBITS. intros Hi Hj Hw Hm.
  assert (i / 32 = j / 32).
  { apply Z2Nat.inj; [apply Z.div_pos; lia | apply Z.div_pos; lia | exact Hw]. }
  rewrite (Z.div_mod i 32), (Z.div_mod j 32) by lia. lia.
Qed.

Lemma testbit_assign_bit (word i p : Z) (b : bool) :
  0 <= p ->
  Z.testbit (assign_bit word i b) p
  = if i mod VBITS =? p then b else Z.testbit word p.
Proof.
  intros Hp. unfold assign_bit, slot_mask.
  assert (0 <= i mod VBITS) by (apply Z.mod_pos_bound; reflexivity).
  rewrite Z.shiftl_1_l.
  destruct b.
  - rewrite Z.lor_spec, Z.pow2_bits_eqb by assumption.
    destruct (i mod VBITS =? p); [apply orb_true_r | apply orb_false_r].
  - rewrite Z.land_spec, Z.lnot_spec, Z.pow2_bits_eqb by assumption.
    destruct (i mod VBITS =? p); [apply andb_false_r | apply andb_true_r].
Qed.

(** Writing slot [i] through the word that was just read changes slot
    [i] and no other slot. *)
Lemma read_slot_assign (res : list Z) (i j : Z) (b : bool) :
  0 <= i -> 0 <= j -> (slot_word i < length res)%nat ->
  read_slot
    (<[slot_word i := assign_bit (load_word res (slot_word i)) i b]> res) j
  = if j =? i then b else read_slot res j.
Proof.
  intros Hi Hj Hlen. unfold read_slot, load_word.
  destruct (Nat.eq_dec (slot_word i) (slot_word j)) as [Heq | Hne].
  - rewrite <- Heq, list_lookup_insert_eq by assumption. simpl.
    rewrite testbit_assign_bit by (apply Z.mod_pos_bound; reflexivity).
    destruct (Z.eqb_spec (i mod VBITS) (j mod VBITS)) as [Hm | Hm].
    + rewrite (slot_word_eq i j Hi Hj Heq Hm), Z.eqb_refl. reflexivity.
    + destruct (Z.eqb_spec j i) as [-> | _]; [congruence | reflexivity].
  - rewrite list_lookup_insert_ne by assumption.
    destruct (Z.eqb_spec j i) as [-> | _]; [congruence | reflexivity].
Qed.

Lemma read_slot_new_results (K j : Z) : read_slot (new_results K) j = false.
Proof.
  unfold read_slot, load_word, new_results.
  destruct (replicate _ 0 !! slot_word j) as [x |] eqn:E; simpl.
  - apply lookup_replicate in E as [-> _]. apply Z.bits_0.
  - apply Z.bits_0.
Qed.

Lemma slot_word_in_range (K i : Z) :
  0 <= i < K -> (slot_word i < length (new_results K))%nat.
Proof.
  intros Hi. unfold new_results, slot_word, VBITS.
  rewrite length_replicate.
  apply Z2Nat.inj_lt; [apply Z.div_pos; lia | apply Z.div_pos; lia |].
  apply Z.div_lt_upper_bound; [lia |].
  pose proof (Z.mul_succ_div_gt (K + 32 - 1) 32 ltac:(lia)). lia.
Qed.

End ResultSlots.

(* ===================================================================== *)
(** * Threads that run one at a time *)
(* ===================================================================== *)

Section OneAtATime.

Variables (vec : list Z) (predicate : Z -> bool).

Let found (w : worker) : bool :=
  any_of_range vec (w_start w) (w_end w) predicate.

(** A thread that has not run yet and is given two steps in a row writes
    its flag into its slot of the current store. *)
Lemma step_twice_ready (t : nat) (w : worker) (m : machine) :
  threads m !! t = Some (w, Ready) ->
  step vec predicate t (step vec predicate t m)
  = {| results := <[slot_word (w_slot w) :=
                      assign_bit (load_word (results m) (slot_word (w_slot w)))
                                 (w_slot w) (found w)]> (results m);
       threads := <[t := (w, Finished)]> (threads m) |}.
Proof.
  intros Ht. pose proof (lookup_lt_Some _ _ _ Ht) as Hlt.
  unfold step at 2. rewrite Ht. unfold step. cbn [threads results].
  rewrite list_lookup_insert_eq by assumption.
  rewrite list_insert_insert_eq. reflexivity.
Qed.

Lemma step_twice_finished (t : nat) (w : worker) (m : machine) :
  threads m !! t = Some (w, Finished) ->
  step vec predicate t (step vec predicate t m) = m.
Proof. intros Ht. unfold step. rewrite Ht. cbn. rewrite Ht. reflexivity. Qed.

Lemma step_twice_none (t : nat) (m : machine) :
  threads m !! t = None ->
  step vec predicate t (step vec predicate t m) = m.
Proof. intros Ht. unfold step. rewrite Ht. cbn. rewrite Ht. reflexivity. Qed.

Lemma run_one_at_a_time (order : list nat) (m : machine) :
  run vec predicate (one_at_a_time order) m
  = foldl (fun m t => step vec predicate t (step vec predicate t m)) m order.
Proof.
  revert m. induction order as [| t order IH]; intros m; [reflexivity |].
  unfold one_at_a_time. rewrite bind_cons. unfold run. simpl.
  apply IH.
Qed.

(** Scanning the ranges of a chain is scanning the stretch they span. *)
Lemma chain_any_of (a : Z) (ws : list worker) (b : Z) :
  0 <= a -> chain a ws b ->
  existsb found ws
  = existsb predicate (take (Z.to_nat (b - a)) (drop (Z.to_nat a) vec)).
Proof.
  revert a. induction ws as [| w ws IH]; simpl; intros a Ha H.
  - subst b. rewrite Z.sub_diag. reflexivity.
  - destruct H as (Hs & Hlt & Hrest). pose proof (chain_le _ _ _ Hrest).
    rewrite (IH (w_end w) ltac:(lia) Hrest).
    unfold found, any_of_range. rewrite Hs, <- existsb_app.
    replace (drop (Z.to_nat (w_end w)) vec)
      with (drop (Z.to_nat (w_end w - a)) (drop (Z.to_nat a) vec))
      by (rewrite drop_drop; f_equal; lia).
    rewrite take_take_drop. do 2 f_equal. lia.
Qed.

Variables (ws : list worker) (K : Z).
Hypothesis slots_in_range : forall w, w ∈ ws -> 0 <= w_slot w < K.
Hypothesis slots_distinct : NoDup (w_slot <$> ws).

(** The flag that a thread has contributed to slot [j]. *)
Let slot_flag (j : Z) (p : worker * thread_state) : bool :=
  (w_slot p.1 =? j) && found p.1 && is_finished p.2.

(** The states in which no thread is between its read and its write:
    the slots hold the flags of the threads that have ended. *)
Record quiescent (m : machine) : Prop := {
  q_workers : (threads m).*1 = ws;
  q_states :
    forall t w st, threads m !! t = Some (w, st) -> st = Ready \/ st = Finished;
  q_length : length (results m) = length (new_results K);
  q_slots :
    forall j, 0 <= j ->
      read_slot (results m) j = existsb (slot_flag j) (threads m)
}.

Lemma existsb_lookup {A : Type} (f : A -> bool) (l : list A) :
  existsb f l = true <-> exists i x, l !! i = Some x /\ f x = true.
Proof.
  rewrite existsb_exists. split.
  - intros (x & Hx & Hf). apply list_elem_of_In, list_elem_of_lookup in Hx as [i Hi].
    eauto.
  - intros (i & x & Hi & Hf). exists x. split; [| exact Hf].
    apply list_elem_of_In, list_elem_of_lookup. eauto.
Qed.

Lemma quiescent_initial :
  quiescent {| results := new_results K; threads := (fun w => (w, Ready)) <$> ws |}.
Proof.
  split; cbn [threads results].
  - rewrite <- list_fmap_compose. apply list_fmap_id.
  - intros t w st Ht. rewrite list_lookup_fmap in Ht.
    destruct (ws !! t); [| discriminate]. injection Ht as _ <-. left. reflexivity.
  - reflexivity.
  - intros j _. rewrite read_slot_new_results. symmetry.
    apply not_true_is_false. intros H.
    apply existsb_lookup in H as (i & [w st] & Hi & Hf).
    rewrite list_lookup_fmap in Hi.
    destruct (ws !! i); [| discriminate]. injection Hi as _ <-.
    unfold slot_flag in Hf. simpl in Hf. rewrite andb_false_r in Hf. discriminate.
Qed.

Lemma quiescent_worker (m : machine) (t : nat) (w : worker) (st : thread_state) :
  quiescent m -> threads m !! t = Some (w, st) -> ws !! t = Some w.
Proof.
  intros [Hws _ _ _] Ht. rewrite <- Hws, list_lookup_fmap, Ht. reflexivity.
Qed.

(** Two steps in a row of one thread lead from a quiescent state to a
    quiescent state. *)
Lemma quiescent_step_twice (m : machine) (t : nat) :
  quiescent m -> quiescent (step vec predicate t (step vec predicate t m)).
Proof.
  intros Hq. pose proof Hq as [Hws Hst Hlen Hslots].
  destruct (threads m !! t) as [[w st] |] eqn:Ht;
    [| rewrite step_twice_none by assumption; exact Hq].
  destruct (Hst t w st Ht) as [-> | ->];
    [| rewrite (step_twice_finished t w) by assumption; exact Hq].
  pose proof (quiescent_worker m t w _ Hq Ht) as Hw.
  assert (Hrange : 0 <= w_slot w < K).
  { apply slots_in_range. eapply list_elem_of_lookup_2. exact Hw. }
  rewrite (step_twice_ready t w m Ht).
  split; cbn [threads results].
  - rewrite list_fmap_insert. simpl. rewrite list_insert_id; [exact Hws |].
    rewrite list_lookup_fmap, Ht. reflexivity.
  - intros t' w' st' H'. destruct (Nat.eq_dec t t') as [<- | Hne].
    + rewrite list_lookup_insert_eq in H' by (eapply lookup_lt_Some; exact Ht).
      injection H' as _ <-. right. reflexivity.
    + rewrite list_lookup_insert_ne in H' by assumption. exact (Hst _ _ _ H').
  - rewrite length_insert. exact Hlen.
  - intros j Hj.
    rewrite read_slot_assign;
      [| lia | assumption | rewrite Hlen; apply slot_word_in_range; exact Hrange].
    rewrite (Hslots j Hj). apply eq_true_iff_eq.
    destruct (Z.eqb_spec j (w_slot w)) as [-> | Hne]; rewrite !existsb_lookup.
    + split.
      * intros Hf. exists t, (w, Finished). split.
        -- apply list_lookup_insert_eq. eapply lookup_lt_Some. exact Ht.
        -- unfold slot_flag. simpl. rewrite Z.eqb_refl, Hf. reflexivity.
      * intros (i & [w' st'] & Hi & Hf).
        unfold slot_flag in Hf. simpl in Hf.
        apply andb_true_iff in Hf as [Hf _]. apply andb_true_iff in Hf as [Hs Hf].
        apply Z.eqb_eq in Hs.
        destruct (Nat.eq_dec t i) as [<- | Hti].
        -- rewrite list_lookup_insert_eq in Hi by (eapply lookup_lt_Some; exact Ht).
           injection Hi as <- _. exact Hf.
        -- rewrite list_lookup_insert_ne in Hi by assumption.
           pose proof (quiescent_worker m i w' _ Hq Hi) as Hw'.
           exfalso. apply Hti.
           apply (NoDup_lookup _ t i (w_slot w) slots_distinct);
             rewrite list_lookup_fmap; [rewrite Hw | rewrite Hw'];
             simpl; congruence.
    + split; intros (i & [w' st'] & Hi & Hf).
      * destruct (Nat.eq_dec t i) as [<- | Hti].
        -- rewrite Ht in Hi. injection Hi as <- <-.
           unfold slot_flag in Hf. simpl in Hf.
           rewrite andb_false_r in Hf. discriminate.
        -- exists i, (w', st'). split; [| exact Hf].
           rewrite list_lookup_insert_ne by assumption. exact Hi.
      * destruct (Nat.eq_dec t i) as [<- | Hti].
        -- rewrite list_lookup_insert_eq in Hi by (eapply lookup_lt_Some; exact Ht).
           injection Hi as <- <-. unfold slot_flag in Hf. simpl in Hf.
           rewrite (proj2 (Z.eqb_neq (w_slot w) j)) in Hf by congruence.
           discriminate.
        -- exists i, (w', st'). split; [| exact Hf].
           rewrite list_lookup_insert_ne in Hi by assumption. exact Hi.
Qed.

Lemma quiescent_fold (order : list nat) (m : machine) :
  quiescent m ->
  quiescent
    (foldl (fun m t => step vec predicate t (step vec predicate t m)) m order).
Proof.
  revert m. induction order as [| t order IH]; intros m Hq; [exact Hq |].
  simpl. apply IH, quiescent_step_twice, Hq.
Qed.

(** Joining the first [n] threads leaves each of them ended. *)
Lemma quiescent_join (m : machine) (n : nat) :
  quiescent m ->
  let m' := foldl (fun m t => step vec predicate t (step vec predicate t m))
                  m (seq 0 n) in
  quiescent m'
  /\ forall t w st, (t < n)%nat -> threads m' !! t = Some (w, st) -> st = Finished.
Proof.
  intros Hq. cbv zeta. induction n as [| n [IHq IHfin]].
  - split; [exact Hq |]. intros t w st Hlt. lia.
  - rewrite seq_S, foldl_snoc. simpl.
    set (m' := foldl _ m (seq 0 n)) in *.
    split; [apply quiescent_step_twice; exact IHq |].
    intros t w st Hlt Hthread.
    destruct (threads m' !! n) as [[wn stn] |] eqn:Hn;
      [| rewrite step_twice_none in Hthread by assumption;
         apply (IHfin t w st); [| exact Hthread];
         assert (t <> n) by congruence; lia].
    destruct (q_states m' IHq n wn stn Hn) as [-> | ->].
    + rewrite (step_twice_ready n wn m' Hn) in Hthread. cbn [threads] in Hthread.
      destruct (Nat.eq_dec n t) as [<- | Hne].
      * rewrite list_lookup_insert_eq in Hthread by (eapply lookup_lt_Some; exact Hn).
        injection Hthread as _ <-. reflexivity.
      * rewrite list_lookup_insert_ne in Hthread by assumption.
        apply (IHfin t w st); [lia | exact Hthread].
    + rewrite (step_twice_finished n wn) in Hthread by assumption.
      destruct (Nat.eq_dec n t) as [<- | Hne].
      * rewrite Hn in Hthread. injection Hthread as _ <-. reflexivity.
      * apply (IHfin t w st); [lia | exact Hthread].
Qed.

(** Once every thread has ended, [any_of] over the slots says whether
    some thread found a match. *)
Lemma any_result_finished (m : machine) :
  quiescent m ->
  (forall t w st, threads m !! t = Some (w, st) -> st = Finished) ->
  any_result (results m) K = existsb found ws.
Proof.
  intros Hq Hfin. pose proof Hq as [Hws _ _ Hslots]. unfold any_result.
  apply eq_true_iff_eq. rewrite existsb_exists, !existsb_lookup. split.
  - intros (j & Hj & Hread).
    apply list_elem_of_In, elem_of_seqZ in Hj.
    rewrite Hslots in Hread by lia.
    apply existsb_lookup in Hread as (i & [w st] & Hi & Hf).
    unfold slot_flag in Hf. simpl in Hf.
    apply andb_true_iff in Hf as [Hf _]. apply andb_true_iff in Hf as [_ Hf].
    exists i, w. split; [exact (quiescent_worker m i w st Hq Hi) | exact Hf].
  - intros (i & w & Hi & Hf).
    assert (Hthread : threads m !! i = Some (w, Finished)).
    { rewrite <- Hws, list_lookup_fmap in Hi.
      destruct (threads m !! i) as [[w' st] |] eqn:E; [| discriminate].
      injection Hi as ->. rewrite (Hfin i w st E). reflexivity. }
    pose proof (slots_in_range w (list_elem_of_lookup_2 _ _ _ Hi)) as Hr.
    exists (w_slot w). split; [apply list_elem_of_In, elem_of_seqZ; lia |].
    rewrite Hslots by lia. apply existsb_lookup.
    exists i, (w, Finished). split; [exact Hthread |].
    unfold slot_flag. simpl. rewrite Z.eqb_refl, Hf. reflexivity.
Qed.

End OneAtATime.

Lemma spawn_slot_range (N K c : Z) (w : worker) :
  w ∈ spawn N K c -> 0 <= w_slot w < K.
Proof.
  unfold spawn. intros H.
  apply list_elem_of_omap in H as (i & Hi & Hw).
  apply elem_of_seqZ in Hi. unfold partition in Hw.
  destruct (_ >=? _); [discriminate |]. injection Hw as <-. simpl. lia.
Qed.

Lemma spawn_slots_NoDup (N K c : Z) : NoDup (w_slot <$> spawn N K c).
Proof.
  unfold spawn. pose proof (NoDup_seqZ 0 K) as H.
  induction H as [| i l Hi _ IH]; [constructor |].
  cbn [omap list_omap].
  destruct (partition N c i) as [w |] eqn:E; [| exact IH].
  cbn [fmap list_fmap]. constructor; [| exact IH].
  assert (w_slot w = i) as ->.
  { unfold partition in E. destruct (_ >=? _); [discriminate |].
    injection E as <-. reflexivity. }
  intros Hin. apply Hi.
  apply list_elem_of_fmap in Hin as (v & Hv & Hin).
  apply list_elem_of_omap in Hin as (j & Hj & Hp).
  unfold partition in Hp. destruct (_ >=? _); [discriminate |].
  injection Hp as <-. simpl in Hv. congruence.
Qed.

(** X1.  When no thread moves between the read and the write of another, the
    call returns whether some element satisfies the predicate: in
    whatever order the threads named by [order] run and end, for every
    fan-out [K >= 1], above the length of the sequence or not. *)
Theorem ParallelAnyOf_one_at_a_time (library : oversized_request)
    (order : list nat) (vec : list Z) (K : Z) (predicate : Z -> bool) :
  Z.of_nat (length vec) <= vector_int_max_size -> 1 <= K <= INT_MAX ->
  ParallelAnyOf library (one_at_a_time order) vec K predicate
  = Returns (existsb predicate vec).
Proof.
  intros HN HK. unfold ParallelAnyOf, construct_results.
  destruct (Z.eqb_spec (Z.of_nat (length vec)) 0) as [H0 | H0].
  { destruct vec; [reflexivity | simpl in H0; lia]. }
  unfold INT_MAX, vector_bool_max_size in *.
  rewrite (to_size_t_small K) by (rewrite size_modulus_value; lia).
  destruct (Z.ltb_spec (2 ^ 63 - 1) K) as [? | _]; [lia |].
  destruct (Z.eqb_spec K 0) as [? | _]; [lia |].
  set (N := Z.of_nat (length vec)) in *.
  set (ws := spawn N K (chunk_size N K)).
  assert (Hslot : forall w, w ∈ ws -> 0 <= w_slot w < K)
    by (intros w; apply spawn_slot_range).
  pose proof (spawn_chain N K ltac:(lia) ltac:(unfold INT_MAX; lia)) as Hchain.
  fold ws in Hchain.
  rewrite run_one_at_a_time. unfold join_all.
  set (m0 := {| results := new_results K; threads := (fun w => (w, Ready)) <$> ws |}).
  set (m1 := foldl _ m0 order).
  assert (Hq1 : quiescent vec predicate ws K m1).
  { apply quiescent_fold; [exact Hslot | apply spawn_slots_NoDup |].
    apply quiescent_initial. }
  destruct (quiescent_join vec predicate ws K Hslot (spawn_slots_NoDup N K _)
              m1 (length (threads m1)) Hq1) as [Hq2 Hfin].
  rewrite (any_result_finished vec predicate ws K Hslot _ Hq2).
  2: { intros t w st Ht. apply (Hfin t w st); [| exact Ht].
       apply lookup_lt_Some in Ht.
       rewrite <- (length_fmap fst) in Ht |- *.
       rewrite (q_workers _ _ _ _ _ Hq2) in Ht.
       rewrite (q_workers _ _ _ _ _ Hq1). exact Ht. }
  rewrite (chain_any_of vec predicate 0 ws N ltac:(lia) Hchain).
  simpl. rewrite Z.sub_0_r, drop_0, take_ge by (unfold N; lia).
  reflexivity.
Qed.

Lemma ParallelAnyOf_one_at_a_time_witness :
  ParallelAnyOf library_returns (one_at_a_time [4; 0; 2]%nat)
    [1; 3; 1; 3; 2; 1] 11 IsTarget
  = Returns (existsb IsTarget [1; 3; 1; 3; 2; 1]).
Proof.
  apply (ParallelAnyOf_one_at_a_time library_returns [4; 0; 2]%nat
           [1; 3; 1; 3; 2; 1] 11 IsTarget).
  - unfold vector_int_max_size. simpl. lia.
  - unfold INT_MAX. lia.
Defined.

(* ===================================================================== *)
(** * Every interleaving: a set slot is a match *)
(* ===================================================================== *)

Section AnySchedule.

Variables (vec : list Z) (predicate : Z -> bool) (ws : list worker).
Hypothesis slots_nonneg : forall w, w ∈ ws -> 0 <= w_slot w.

Let found (w : worker) : bool :=
  any_of_range vec (w_start w) (w_end w) predicate.

(** Some thread with slot [j] has found a match. *)
Let matched (j : Z) : Prop :=
  exists w, w ∈ ws /\ w_slot w = j /\ found w = true.

(** Every bit set in [word], taken as word [k] of [results], is the slot
    of a thread that found a match. *)
Let sound_word (k : nat) (word : Z) : Prop :=
  forall p, 0 <= p < VBITS -> Z.testbit word p = true ->
    matched (VBITS * Z.of_nat k + p).

(** What every interleaving preserves: the words of [results], and the
    words the threads hold between their read and their write, have no
    bit set without a match behind it. *)
Record no_false_flag (m : machine) : Prop := {
  nf_workers : (threads m).*1 = ws;
  nf_results : forall k, sound_word k (load_word (results m) k);
  nf_loaded :
    forall t w f word, threads m !! t = Some (w, Loaded f word) ->
      f = found w /\ sound_word (slot_word (w_slot w)) word
}.

Lemma no_false_flag_initial (K : Z) :
  no_false_flag
    {| results := new_results K; threads := (fun w => (w, Ready)) <$> ws |}.
Proof.
  split; cbn [threads results].
  - rewrite <- list_fmap_compose. apply list_fmap_id.
  - intros k p _ Hbit. exfalso.
    unfold load_word, new_results in Hbit.
    destruct (replicate _ 0 !! k) as [x |] eqn:E; simpl in Hbit.
    + apply lookup_replicate in E as [-> _]. rewrite Z.bits_0 in Hbit. discriminate.
    + rewrite Z.bits_0 in Hbit. discriminate.
  - intros t w f word Ht. rewrite list_lookup_fmap in Ht.
    destruct (ws !! t); discriminate.
Qed.

Lemma slot_of_word (i : Z) :
  0 <= i -> VBITS * Z.of_nat (slot_word i) + i mod VBITS = i.
Proof.
  intros Hi. unfold slot_word, VBITS.
  rewrite Z2Nat.id by (apply Z.div_pos; lia).
  symmetry. apply Z.div_mod. lia.
Qed.

Lemma no_false_flag_step (t : nat) (m : machine) :
  no_false_flag m -> no_false_flag (step vec predicate t m).
Proof.
  intros [Hws Hres Hloaded]. unfold step.
  destruct (threads m !! t) as [[w st] |] eqn:Ht; [| split; assumption].
  assert (Hlt : (t < length (threads m))%nat) by (eapply lookup_lt_Some; exact Ht).
  assert (Hw : w ∈ ws).
  { rewrite <- Hws. apply list_elem_of_fmap. exists (w, st).
    split; [reflexivity | eapply list_elem_of_lookup_2; exact Ht]. }
  assert (Hkeep : forall st', (<[t := (w, st')]> (threads m)).*1 = ws).
  { intros st'. rewrite list_fmap_insert. simpl.
    rewrite list_insert_id; [exact Hws |].
    rewrite list_lookup_fmap, Ht. reflexivity. }
  destruct st as [| f word |]; [| | split; assumption].
  - split; cbn [threads results]; [apply Hkeep | exact Hres |].
    intros t' w' f' word' H'.
    destruct (Nat.eq_dec t t') as [<- | Hne].
    + rewrite list_lookup_insert_eq in H' by assumption.
      injection H' as <- <- <-. split; [reflexivity | apply Hres].
    + rewrite list_lookup_insert_ne in H' by assumption.
      exact (Hloaded _ _ _ _ H').
  - destruct (Hloaded t w f word Ht) as [-> Hword].
    split; cbn [threads results]; [apply Hkeep | |].
    + intros k p Hp Hbit. unfold load_word in Hbit.
      rewrite list_lookup_insert in Hbit.
      destruct (decide (slot_word (w_slot w) = k /\ _)) as [[<- _] | _];
        [| exact (Hres k p Hp Hbit)].
      simpl in Hbit. rewrite testbit_assign_bit in Hbit by lia.
      destruct (Z.eqb_spec (w_slot w mod VBITS) p) as [<- | _];
        [| exact (Hword p Hp Hbit)].
      exists w. split; [exact Hw |].
      split; [| exact Hbit].
      symmetry. apply slot_of_word, slots_nonneg, Hw.
    + intros t' w' f' word' H'.
      destruct (Nat.eq_dec t t') as [<- | Hne].
      * rewrite list_lookup_insert_eq in H' by assumption. discriminate H'.
      * rewrite list_lookup_insert_ne in H' by assumption.
        exact (Hloaded _ _ _ _ H').
Qed.

Lemma no_false_flag_run (schedule : list nat) (m : machine) :
  no_false_flag m -> no_false_flag (run vec predicate schedule m).
Proof.
  unfold run. revert m.
  induction schedule as [| t schedule IH]; intros m Hm; [exact Hm |].
  simpl. apply IH, no_false_flag_step, Hm.
Qed.

Lemma no_false_flag_join (m : machine) :
  no_false_flag m -> no_false_flag (join_all vec predicate m).
Proof.
  unfold join_all. generalize (seq 0 (length (threads m))). intros l. revert m.
  induction l as [| t l IH]; intros m Hm; [exact Hm |].
  simpl. apply IH. do 2 apply no_false_flag_step. exact Hm.
Qed.

(** A thread that found a match has scanned an element that satisfies
    the predicate. *)
Lemma found_in_vec (w : worker) : found w = true -> existsb predicate vec = true.
Proof.
  unfold found, any_of_range. rewrite !existsb_exists.
  intros (x & Hx & Hp). exists x. split; [| exact Hp].
  apply list_elem_of_In. apply list_elem_of_In in Hx.
  apply (subseteq_drop (Z.to_nat (w_start w))).
  exact (subseteq_take _ _ _ Hx).
Qed.

Lemma any_result_sound (m : machine) (K : Z) :
  no_false_flag m -> any_result (results m) K = true ->
  existsb predicate vec = true.
Proof.
  intros [_ Hres _] Hany. unfold any_result in Hany.
  apply existsb_exists in Hany as (j & Hj & Hread).
  apply list_elem_of_In, elem_of_seqZ in Hj.
  unfold read_slot in Hread.
  destruct (Hres (slot_word j) (j mod VBITS)
              ltac:(apply Z.mod_pos_bound; reflexivity) Hread)
    as (w & _ & _ & Hfound).
  exact (found_in_vec w Hfound).
Qed.

End AnySchedule.

(** X2.  However the threads interleave, the call returns [true] only when
    some element satisfies the predicate: an overwritten word can lose a
    flag, it cannot invent one. *)
Theorem ParallelAnyOf_true_is_a_match (library : oversized_request)
    (schedule : list nat) (vec : list Z) (K : Z) (predicate : Z -> bool) :
  ParallelAnyOf library schedule vec K predicate = Returns true ->
  existsb predicate vec = true.
Proof.
  unfold ParallelAnyOf.
  destruct (_ =? 0); [discriminate |].
  destruct (construct_results library K); [discriminate |].
  destruct (_ =? 0); [discriminate |].
  intros H. injection H as H.
  set (N := Z.of_nat (length vec)) in *.
  set (ws := spawn N K (chunk_size N K)) in *.
  assert (Hslots : forall w, w ∈ ws -> 0 <= w_slot w).
  { intros w Hw. apply (spawn_slot_range N K _ w Hw). }
  refine (any_result_sound vec predicate ws _ K _ H).
  apply (no_false_flag_join vec predicate ws Hslots).
  apply (no_false_flag_run vec predicate ws Hslots).
  apply no_false_flag_initial.
Qed.

Lemma ParallelAnyOf_true_is_a_match_witness :
  existsb IsTarget [1; 2] = true.
Proof.
  apply (ParallelAnyOf_true_is_a_match library_returns [0; 1; 0; 1]%nat
           [1; 2] 2 IsTarget).
  reflexivity.
Defined.

(* ===================================================================== *)
(** * Threads that overlap in time *)
(* ===================================================================== *)

Section Races.

(** The only part of the store a worker thread changes is the word of
    [results] that holds its slot: this is what [writes] lists. *)
Lemma step_writes_own_word (vec : list Z) (predicate : Z -> bool)
    (t : nat) (m : machine) (w : worker) (st : thread_state) (k : nat) :
  threads m !! t = Some (w, st) -> k <> slot_word (w_slot w) ->
  results (step vec predicate t m) !! k = results m !! k.
Proof.
  intros Ht Hk. unfold step. rewrite Ht.
  destruct st; cbn [results]; try reflexivity.
  apply list_lookup_insert_ne. congruence.
Qed.

(** ... and it does change that word: the write-back stores the word
    the thread read earlier, with its own bit set or cleared. *)
Lemma step_stores_own_word (vec : list Z) (predicate : Z -> bool)
    (t : nat) (m : machine) (w : worker) (f : bool) (word : Z) :
  threads m !! t = Some (w, Loaded f word) ->
  (slot_word (w_slot w) < length (results m))%nat ->
  results (step vec predicate t m) !! slot_word (w_slot w)
  = Some (assign_bit word (w_slot w) f).
Proof.
  intros Ht Hlen. unfold step. rewrite Ht. cbn [results].
  apply list_lookup_insert_eq. exact Hlen.
Qed.

(** With at least two elements and a fan-out of at least two, the
    threads of slots 0 and 1 are both started. *)
Lemma spawn_two_workers (N K : Z) :
  2 <= N <= vector_int_max_size -> 2 <= K <= INT_MAX ->
  exists w0 w1,
    spawn N K (chunk_size N K) !! 0%nat = Some w0 /\ w_slot w0 = 0
    /\ spawn N K (chunk_size N K) !! 1%nat = Some w1 /\ w_slot w1 = 1.
Proof.
  intros HN HK.
  rewrite (spawn_exact N K ltac:(lia) ltac:(lia)).
  destruct (ceil_div_bounds N K ltac:(lia) ltac:(lia)) as (Hc0 & Hlo & Hhi).
  set (c := ceil_div N K) in *.
  assert (Hc1 : 1 <= c) by nia.
  assert (HcN : c < N) by nia.
  assert (E0 : spec_partition N c 0 = Some (mkWorker 0 (Z.min c N) 0)).
  { unfold spec_partition. rewrite Z.mul_0_l, Z.add_0_l.
    destruct (Z.geb_spec 0 (Z.min c N)); [lia | reflexivity]. }
  assert (E1 : spec_partition N c 1 = Some (mkWorker c (Z.min (c + c) N) 1)).
  { unfold spec_partition. rewrite Z.mul_1_l.
    destruct (Z.geb_spec c (Z.min (c + c) N)); [lia | reflexivity]. }
  unfold spec_partitions. fold c.
  rewrite (seqZ_cons 0 K), (seqZ_cons (Z.succ 0)) by lia.
  change (Z.succ 0) with 1.
  cbn [omap list_omap]. rewrite E0, E1.
  eexists _, _.
  split; [reflexivity |]. split; [reflexivity |]. split; reflexivity.
Qed.

(** Slots 0 and 1 are bits of the same word, which both threads read and
    write back. *)
Lemma first_two_slots_conflict (w0 w1 : worker) :
  w_slot w0 = 0 -> w_slot w1 = 1 -> conflict w0 w1.
Proof.
  intros H0 H1. exists (Results_word 0%nat). unfold writes.
  rewrite H0, H1. split; [| left]; apply list_elem_of_singleton; reflexivity.
Qed.

(** X3.  Whenever the call really is parallel (two elements or more, a
    fan-out of two or more) two of its threads conflict on a word of
    [results]. *)
Theorem ParallelAnyOf_threads_race (N K : Z) :
  2 <= N <= vector_int_max_size -> 2 <= K <= INT_MAX ->
  data_race (spawn N K (chunk_size N K)).
Proof.
  intros HN HK.
  destruct (spawn_two_workers N K HN HK) as (w0 & w1 & Hw0 & Hs0 & Hw1 & Hs1).
  exists 0%nat, 1%nat, w0, w1.
  repeat split; [lia | exact Hw0 | exact Hw1 |].
  exact (first_two_slots_conflict w0 w1 Hs0 Hs1).
Qed.

Lemma ParallelAnyOf_threads_race_witness :
  data_race (spawn 50000000 16 (chunk_size 50000000 16)).
Proof.
  apply (ParallelAnyOf_threads_race 50000000 16).
  - unfold vector_int_max_size. lia.
  - unfold INT_MAX. lia.
Defined.

(** The slot indices themselves are pairwise different, and a worker
    writes nothing of the sequence. *)
Lemma worker_writes_no_element (w : worker) (i : Z) : Vec_element i ∉ writes w.
Proof.
  unfold writes. intros H. apply list_elem_of_singleton in H. discriminate H.
Qed.

End Races.

(** C4, at a failing input.  For the two-element sequence and [K = 2] the
    loop starts the threads of slots 0 and 1; their slots differ, but
    both slots are bits of word 0 of [results], which each thread reads
    and writes back without synchronization: the two threads race. *)
Theorem worker_slots_share_a_word :
  spawn 2 2 (chunk_size 2 2) = [mkWorker 0 1 0; mkWorker 1 2 1]
  /\ slot_word 0 = slot_word 1
  /\ writes (mkWorker 0 1 0) = writes (mkWorker 1 2 1)
  /\ data_race (spawn 2 2 (chunk_size 2 2)).
Proof.
  split; [reflexivity |]. split; [reflexivity |]. split; [reflexivity |].
  exists 0%nat, 1%nat, (mkWorker 0 1 0), (mkWorker 1 2 1).
  split; [lia |]. split; [reflexivity |]. split; [reflexivity |].
  apply first_two_slots_conflict; reflexivity.
Qed.

(** C1, at a failing input.  Sequence [2; 1], [K = 2], the predicate of
    the benchmark.  Thread 0 finds the target, thread 1 does not.  When
    both read word 0 of [results] before either writes it back, and
    thread 1 writes last, the flag of thread 0 is overwritten and the
    call returns [false] although an element satisfies the predicate.
    Run one after the other, the same threads give [true]. *)
Theorem ParallelAnyOf_lost_update (library : oversized_request) :
  existsb IsTarget [2; 1] = true
  /\ ParallelAnyOf library [0; 1; 0; 1]%nat [2; 1] 2 IsTarget = Returns false
  /\ ParallelAnyOf library [0; 0; 1; 1]%nat [2; 1] 2 IsTarget = Returns true.
Proof. repeat split. Qed.

(* ===================================================================== *)
(** * The candidate K-set *)
(* ===================================================================== *)

Section CandidateSet.

Lemma elem_of_unique_from (x : Z) (l : list Z) (y : Z) :
  y ∈ unique_from x l <-> y = x \/ y ∈ l.
Proof.
  revert x. induction l as [| z l IH]; intros x; simpl.
  - rewrite list_elem_of_singleton, elem_of_nil. tauto.
  - destruct (Z.eqb_spec z x) as [-> | Hne].
    + rewrite IH, elem_of_cons. tauto.
    + rewrite !elem_of_cons, IH. tauto.
Qed.

Lemma elem_of_unique (l : list Z) (y : Z) : y ∈ unique l <-> y ∈ l.
Proof.
  destruct l as [| x l]; simpl; [reflexivity |].
  rewrite elem_of_unique_from, elem_of_cons. reflexivity.
Qed.

(** On a sorted vector [unique] leaves a strictly ascending one. *)
Lemma unique_from_ascending (x : Z) (l : list Z) :
  StronglySorted Z.le (x :: l) -> StronglySorted Z.lt (unique_from x l).
Proof.
  revert x. induction l as [| z l IH]; intros x H; simpl.
  - repeat constructor.
  - inversion H as [| ? ? Hl Hx]; subst.
    inversion Hl as [| ? ? Hl' Hz]; subst.
    inversion Hx as [| ? ? Hxz Hxl]; subst.
    destruct (Z.eqb_spec z x) as [-> | Hne].
    + apply IH. constructor; assumption.
    + constructor; [apply IH; exact Hl |].
      apply Forall_forall. intros y Hy.
      apply elem_of_unique_from in Hy as [-> | Hy]; [lia |].
      rewrite Forall_forall in Hz. specialize (Hz y Hy). lia.
Qed.

Lemma unique_sort_ascending (l : list Z) : StronglySorted Z.lt (unique (sort l)).
Proof.
  pose proof (StronglySorted_merge_sort Z.le l) as H.
  unfold sort. destruct (merge_sort Z.le l) as [| x l'] eqn:E; simpl.
  - constructor.
  - apply unique_from_ascending. exact H.
Qed.

Lemma elem_of_unique_sort (l : list Z) (y : Z) : y ∈ unique (sort l) <-> y ∈ l.
Proof.
  rewrite elem_of_unique. unfold sort.
  now rewrite (merge_sort_Permutation Z.le l).
Qed.

(** What the pushes of lines 107-112 put into the vector, as long as
    [maxThreads * 4] is an [int]. *)
Lemma elem_of_K_values (P K : Z) :
  is_int (4 * P) ->
  K ∈ K_values P
  <-> K = 1 \/ 2 <= K <= P \/ (1 < P /\ (K = 2 * P \/ K = Z.max (4 * P) 8)).
Proof.
  intros Hmax. unfold K_values.
  rewrite elem_of_unique_sort.
  rewrite !to_int_small by (unfold is_int, INT_MIN, INT_MAX in *; lia).
  destruct (Z.ltb_spec 1 P) as [H1 | H1].
  - rewrite !elem_of_app, !elem_of_cons, elem_of_nil, elem_of_seqZ. lia.
  - rewrite elem_of_app, list_elem_of_singleton, elem_of_seqZ. lia.
Qed.

Lemma K_values_range (P K : Z) :
  is_int (4 * P) -> K ∈ K_values P -> 1 <= K <= INT_MAX.
Proof.
  intros Hmax HK. apply elem_of_K_values in HK; [| assumption].
  unfold is_int, INT_MIN, INT_MAX in *. lia.
Qed.

End CandidateSet.

(** C5.  For a hardware concurrency [P >= 1] (with [4 P] still an
    [int]), the candidate vector is strictly ascending, hence free of
    duplicates, and holds exactly [1], the integers from [2] to [P], and,
    when [P > 1], [2 P] and [max (4 P) 8]; for [P = 4] it is
    [1, 2, 3, 4, 8, 16]. *)
Theorem K_values_candidate_set (P : Z) :
  1 <= P -> 4 * P <= INT_MAX ->
  StronglySorted Z.lt (K_values P)
  /\ NoDup (K_values P)
  /\ (forall K, K ∈ K_values P
        <-> K = 1 \/ 2 <= K <= P \/ (1 < P /\ (K = 2 * P \/ K = Z.max (4 * P) 8)))
  /\ K_values 4 = [1; 2; 3; 4; 8; 16].
Proof.
  intros HP Hmax.
  assert (Hsorted : StronglySorted Z.lt (K_values P))
    by apply unique_sort_ascending.
  split; [exact Hsorted |]. split; [| split].
  - clear -Hsorted. induction Hsorted as [| x l _ IH Hx]; constructor.
    + intros Hin. rewrite Forall_forall in Hx. specialize (Hx x Hin). lia.
    + exact IH.
  - intros K. apply elem_of_K_values. unfold is_int, INT_MIN. lia.
  - reflexivity.
Qed.

Lemma K_values_candidate_set_witness :
  StronglySorted Z.lt (K_values 6)
  /\ NoDup (K_values 6)
  /\ (forall K, K ∈ K_values 6
        <-> K = 1 \/ 2 <= K <= 6 \/ (1 < 6 /\ (K = 2 * 6 \/ K = Z.max (4 * 6) 8)))
  /\ K_values 4 = [1; 2; 3; 4; 8; 16].
Proof.
  apply (K_values_candidate_set 6).
  - lia.
  - unfold INT_MAX. lia.
Defined.

(* ===================================================================== *)
(** * The sweep: best of three, best K, skipped candidates *)
(* ===================================================================== *)

Section BestOfThree.

Lemma dmin_cases (a b : Q) :
  ((b < a)%Q /\ dmin a b = b) \/ ((a <= b)%Q /\ dmin a b = a).
Proof. unfold dmin. destruct (Qlt_le_dec b a); [left | right]; auto. Qed.

Lemma dmin_le_l (a b : Q) : (dmin a b <= a)%Q.
Proof.
  destruct (dmin_cases a b) as [[H ->] | [H ->]];
    [apply Qlt_le_weak; exact H | apply Qle_refl].
Qed.

Lemma dmin_le_r (a b : Q) : (dmin a b <= b)%Q.
Proof.
  destruct (dmin_cases a b) as [[H ->] | [H ->]];
    [apply Qle_refl | exact H].
Qed.

Variable measure : nat -> Q.
Hypothesis measure_finite : forall n, (measure n < DBL_MAX)%Q.

Lemma best_of_3_unfold (c : nat) :
  best_of_3 measure c
  = dmin (dmin (dmin DBL_MAX (measure (c + 0)%nat)) (measure (c + 1)%nat))
         (measure (c + 2)%nat).
Proof. reflexivity. Qed.

(** The starting value [DBL_MAX] never survives: the recorded time is
    the least of the three runs. *)
Lemma best_of_3_minimum (c : nat) :
  minimum_of (best_of_3 measure c)
    [measure c; measure (c + 1)%nat; measure (c + 2)%nat].
Proof.
  rewrite best_of_3_unfold, Nat.add_0_r.
  assert (H0 : dmin DBL_MAX (measure c) = measure c).
  { destruct (dmin_cases DBL_MAX (measure c)) as [[_ E] | [H _]]; [exact E |].
    exfalso. exact (Qlt_not_le _ _ (measure_finite c) H). }
  rewrite H0. unfold minimum_of.
  set (a := measure c). set (b := measure (c + 1)%nat).
  set (d := measure (c + 2)%nat).
  pose proof (dmin_le_l a b) as Hab_a. pose proof (dmin_le_r a b) as Hab_b.
  pose proof (dmin_le_l (dmin a b) d) as Hl.
  pose proof (dmin_le_r (dmin a b) d) as Hr.
  split.
  - destruct (dmin_cases (dmin a b) d) as [[_ ->] | [_ ->]].
    + do 2 apply list_elem_of_further. apply list_elem_of_here.
    + destruct (dmin_cases a b) as [[_ ->] | [_ ->]].
      * apply list_elem_of_further, list_elem_of_here.
      * apply list_elem_of_here.
  - repeat constructor.
    + exact (Qle_trans _ _ _ Hl Hab_a).
    + exact (Qle_trans _ _ _ Hl Hab_b).
    + exact Hr.
Qed.

Lemma best_of_3_finite (c : nat) : (best_of_3 measure c < DBL_MAX)%Q.
Proof.
  destruct (best_of_3_minimum c) as [_ H].
  inversion H as [| ? ? Hc _]; subst.
  exact (Qle_lt_trans _ _ _ Hc (measure_finite c)).
Qed.

Variables dataSize maxThreads : Z.

(** What holds of the state of the loop after any number of
    iterations. *)
Record sweep_invariant (s : sweep_state) : Prop := {
  inv_calls : calls s = (4 + 3 * length (table s))%nat;
  inv_rows :
    forall j K t, table s !! j = Some (K, t) ->
      t = best_of_3 measure (4 + 3 * j);
  inv_best :
    (table s = [] /\ bestTime s = DBL_MAX /\ bestK s = 0)
    \/ ((bestK s, bestTime s) ∈ table s
        /\ forall K t, (K, t) ∈ table s -> (bestTime s <= t)%Q)
}.

Lemma sweep_invariant_start : sweep_invariant sweep_start.
Proof.
  split; simpl.
  - reflexivity.
  - intros j K t H. discriminate H.
  - left. auto.
Qed.

Lemma sweep_invariant_step (s : sweep_state) (K : Z) :
  sweep_invariant s ->
  sweep_invariant (sweep_step measure dataSize maxThreads s K).
Proof.
  intros [Hcalls Hrows Hbest]. unfold sweep_step.
  destruct (skipped dataSize maxThreads K); [split; assumption |].
  set (t := best_of_3 measure (calls s)).
  split; cbn [calls table bestTime bestK].
  - rewrite length_app, Hcalls. simpl. lia.
  - intros j K' t' Hj.
    destruct (Nat.lt_ge_cases j (length (table s))) as [Hlt | Hge].
    + rewrite lookup_app_l in Hj by assumption. exact (Hrows j K' t' Hj).
    + rewrite lookup_app_r in Hj by assumption.
      destruct (j - length (table s))%nat as [| n] eqn:E; [| discriminate Hj].
      injection Hj as <- <-. unfold t. f_equal. lia.
  - right. destruct (Qlt_le_dec t (bestTime s)) as [Hlt | Hle].
    + split; [apply elem_of_app; right; apply list_elem_of_here |].
      intros K' t' Hin. apply elem_of_app in Hin as [Hin | Hin].
      * destruct Hbest as [(Hnil & _ & _) | [_ Hall]].
        -- rewrite Hnil in Hin. apply elem_of_nil in Hin. contradiction.
        -- apply Qlt_le_weak. exact (Qlt_le_trans _ _ _ Hlt (Hall K' t' Hin)).
      * apply list_elem_of_singleton in Hin. injection Hin as -> ->.
        apply Qle_refl.
    + destruct Hbest as [(_ & Hmax & _) | [Hin Hall]].
      * exfalso. rewrite Hmax in Hle.
        exact (Qlt_not_le _ _ (best_of_3_finite (calls s)) Hle).
      * split; [apply elem_of_app; left; exact Hin |].
        intros K' t' Hin'. apply elem_of_app in Hin' as [Hin' | Hin'].
        -- exact (Hall K' t' Hin').
        -- apply list_elem_of_singleton in Hin'. injection Hin' as -> ->.
           exact Hle.
Qed.

Lemma sweep_invariant_fold (Ks : list Z) (s : sweep_state) :
  sweep_invariant s ->
  sweep_invariant (foldl (sweep_step measure dataSize maxThreads) s Ks).
Proof.
  revert s. induction Ks as [| K Ks IH]; intros s Hs; simpl; [exact Hs |].
  apply IH, sweep_invariant_step, Hs.
Qed.

End BestOfThree.

Section SkippedCandidates.

Variables (measure : nat -> Q) (dataSize maxThreads : Z).

(** The rows of the table are the candidates the test of line 123 lets
    through, in their order. *)
Lemma table_keys_fold (Ks : list Z) (s : sweep_state) :
  (table (foldl (sweep_step measure dataSize maxThreads) s Ks)).*1
  = (table s).*1 ++ filter (fun K => skipped dataSize maxThreads K = false) Ks.
Proof.
  revert s. induction Ks as [| K Ks IH]; intros s; simpl.
  - rewrite app_nil_r. reflexivity.
  - rewrite IH, filter_cons. unfold sweep_step.
    destruct (skipped dataSize maxThreads K) eqn:E.
    + destruct (decide (true = false)); [discriminate | reflexivity].
    + destruct (decide (false = false)); [| congruence].
      cbn [table]. rewrite fmap_app, <- app_assoc. reflexivity.
Qed.

Lemma skipped_candidate (K : Z) :
  is_int (4 * maxThreads) -> 1 <= K <= INT_MAX ->
  skipped dataSize maxThreads K = true <-> K > dataSize /\ K > 2 * maxThreads.
Proof.
  intros HP HK. unfold skipped.
  unfold is_int, INT_MIN, INT_MAX in *.
  rewrite to_size_t_small by (rewrite size_modulus_value; lia).
  rewrite to_int_small by (unfold is_int, INT_MIN, INT_MAX; lia).
  rewrite andb_true_iff, !Z.gtb_ltb, !Z.ltb_lt. lia.
Qed.

End SkippedCandidates.

(** C6.  With durations below [DBL_MAX] (every duration a clock can
    measure is), the table has one row for each candidate that the test
    of line 123 lets through, in their order, and the row of a candidate
    [K] carries that [K] and the minimum of the three runs measured for
    it; once a candidate has been evaluated, the reported best [K] is
    one of the evaluated candidates, it and its time are a row of the
    table, and no row has a smaller time; for the runs 0.05, 0.03, 0.04
    the recorded time is 0.03. *)
Theorem K_sweep_best_of_3 (measure : nat -> Q) (dataSize maxThreads : Z) :
  (forall n, (measure n < DBL_MAX)%Q) ->
  let s := K_sweep measure dataSize maxThreads in
  let evaluated :=
    filter (fun K => skipped dataSize maxThreads K = false)
           (K_values maxThreads) in
  (table s).*1 = evaluated
  /\ (forall j K, evaluated !! j = Some K ->
        exists t, table s !! j = Some (K, t)
                  /\ minimum_of t (runs_of measure j))
  /\ (forall j K t, table s !! j = Some (K, t) -> minimum_of t (runs_of measure j))
  /\ (evaluated <> [] ->
      bestK s ∈ evaluated
      /\ (bestK s, bestTime s) ∈ table s
      /\ forall K t, (K, t) ∈ table s -> (bestTime s <= t)%Q)
  /\ best_of_3 (fun n => nth n [0.05; 0.03; 0.04]%Q 0%Q) 0 = 0.03%Q.
Proof.
  intros Hfin s evaluated.
  destruct (sweep_invariant_fold measure Hfin dataSize maxThreads
              (K_values maxThreads) sweep_start (sweep_invariant_start measure))
    as [_ Hrows Hbest].
  fold (K_sweep measure dataSize maxThreads) in Hrows, Hbest. fold s in Hrows, Hbest.
  assert (Hkeys : (table s).*1 = evaluated).
  { unfold s, K_sweep. rewrite table_keys_fold. reflexivity. }
  assert (Hmin : forall j K t, table s !! j = Some (K, t) ->
                   minimum_of t (runs_of measure j)).
  { intros j K t Hj. rewrite (Hrows j K t Hj).
    apply (best_of_3_minimum measure Hfin). }
  split; [exact Hkeys |]. split; [| split; [exact Hmin |]; split; [| reflexivity]].
  - intros j K Hj. rewrite <- Hkeys, list_lookup_fmap in Hj.
    destruct (table s !! j) as [[K' t] |] eqn:Erow; [| discriminate Hj].
    injection Hj as <-. exists t. split; [reflexivity |].
    exact (Hmin j K' t Erow).
  - intros Hne. destruct Hbest as [(Hnil & _) | [Hin Hall]].
    + exfalso. apply Hne. rewrite <- Hkeys, Hnil. reflexivity.
    + split; [| split; [exact Hin | exact Hall]].
      rewrite <- Hkeys. apply list_elem_of_fmap.
      exists (bestK s, bestTime s). split; [reflexivity | exact Hin].
Qed.

Lemma K_sweep_best_of_3_witness :
  let measure := fun n : nat => nth n [0.3; 0.4; 0.2; 0.6; 0.05; 0.03; 0.04]%Q 0.5%Q in
  let s := K_sweep measure 10 4 in
  let evaluated := filter (fun K => skipped 10 4 K = false) (K_values 4) in
  (table s).*1 = evaluated
  /\ (forall j K, evaluated !! j = Some K ->
        exists t, table s !! j = Some (K, t)
                  /\ minimum_of t (runs_of measure j))
  /\ (forall j K t, table s !! j = Some (K, t) -> minimum_of t (runs_of measure j))
  /\ (evaluated <> [] ->
      bestK s ∈ evaluated
      /\ (bestK s, bestTime s) ∈ table s
      /\ forall K t, (K, t) ∈ table s -> (bestTime s <= t)%Q)
  /\ best_of_3 (fun n => nth n [0.05; 0.03; 0.04]%Q 0%Q) 0 = 0.03%Q.
Proof.
  apply (K_sweep_best_of_3
           (fun n : nat => nth n [0.3; 0.4; 0.2; 0.6; 0.05; 0.03; 0.04]%Q 0.5%Q)
           10 4).
  intros n. do 7 (destruct n as [| n]; [reflexivity |]).
  destruct n; reflexivity.
Defined.

Example K_sweep_rows :
  let measure := fun n : nat => nth n [0.3; 0.4; 0.2; 0.6; 0.05; 0.03; 0.04]%Q 0.5%Q in
  table (K_sweep measure 10 4)
  = [(1, 0.03%Q); (2, 0.5%Q); (3, 0.5%Q); (4, 0.5%Q); (8, 0.5%Q)].
Proof. reflexivity. Qed.

(** C7.  A candidate [K] gets a row in the table (it is measured) if and
    only if it is not the case that [K > N] and [K > 2 P]; [N] is the
    length of the sequence and [P] the hardware concurrency, with
    [4 P], computed at line 91, still an [int]. *)
Theorem K_sweep_skips (measure : nat -> Q) (N P K : Z) :
  is_int (4 * P) -> K ∈ K_values P ->
  K ∈ (table (K_sweep measure N P)).*1 <-> ~ (K > N /\ K > 2 * P).
Proof.
  intros HP HK. unfold K_sweep. rewrite table_keys_fold. simpl.
  rewrite list_elem_of_filter.
  pose proof (skipped_candidate N P K HP (K_values_range P K HP HK)) as Hskip.
  destruct (skipped N P K); split.
  - intros [H _]. discriminate H.
  - intros H. exfalso. apply H, Hskip. reflexivity.
  - intros _ H. apply Hskip in H. discriminate H.
  - intros _. split; [reflexivity | exact HK].
Qed.

Lemma K_sweep_skips_witness :
  16 ∈ (table (K_sweep (fun _ => 1%Q) 10 4)).*1 <-> ~ (16 > 10 /\ 16 > 2 * 4).
Proof.
  apply (K_sweep_skips (fun _ => 1%Q) 10 4 16).
  - unfold is_int, INT_MIN, INT_MAX. lia.
  - rewrite K_values_4. do 5 apply list_elem_of_further. apply list_elem_of_here.
Defined.

Example K_sweep_small_input :
  (table (K_sweep (fun _ => 1%Q) 3 4)).*1 = [1; 2; 3; 4; 8].
Proof. reflexivity. Qed.

(* ===================================================================== *)
(** * The scenario initializers *)
(* ===================================================================== *)

Section Initializers.

Lemma draw_non_target_some (draws : list Z) :
  (0 < non_targets draws)%nat ->
  exists x rest,
    draw_non_target draws = Some (x, rest)
    /\ x <> TARGET_VALUE
    /\ non_targets draws = S (non_targets rest).
Proof.
  unfold non_targets. induction draws as [| d draws IH]; simpl; [lia |].
  rewrite filter_cons. destruct (Z.eqb_spec d TARGET_VALUE) as [-> | Hne].
  - destruct (decide (TARGET_VALUE <> TARGET_VALUE)); [congruence |]. exact IH.
  - destruct (decide (d <> TARGET_VALUE)); [| contradiction].
    intros _. exists d, draws. auto.
Qed.

Lemma draw_non_target_sound (draws : list Z) (x : Z) (rest : list Z) :
  draw_non_target draws = Some (x, rest) -> x <> TARGET_VALUE.
Proof.
  induction draws as [| d draws IH]; simpl; [discriminate |].
  destruct (Z.eqb_spec d TARGET_VALUE) as [-> | Hne]; [exact IH |].
  intros H. injection H as <- _. exact Hne.
Qed.

(** Whatever the draws, a fill that ends leaves a vector of the same
    length without the target. *)
Lemma FillRandomNonTarget_sound (vec draws filled rest : list Z) :
  FillRandomNonTarget vec draws = Some (filled, rest) ->
  length filled = length vec /\ target_free filled.
Proof.
  revert draws filled rest.
  induction vec as [| v vec IH]; simpl; intros draws filled rest H.
  - injection H as <- _. split; [reflexivity |]. intros i. rewrite lookup_nil. discriminate.
  - destruct (draw_non_target draws) as [[x r] |] eqn:Ed; [| discriminate].
    destruct (FillRandomNonTarget vec r) as [[f r'] |] eqn:Ef; [| discriminate].
    injection H as <- _. destruct (IH _ _ _ Ef) as [Hlen Hfree].
    split; [simpl; congruence |].
    intros [| i]; simpl; [| apply Hfree].
    intros E. injection E as ->.
    exact (draw_non_target_sound _ _ _ Ed eq_refl).
Qed.

(** The fill ends as soon as the draws hold one non-target value for
    every element. *)
Lemma FillRandomNonTarget_ends (vec draws : list Z) :
  (length vec <= non_targets draws)%nat ->
  exists filled rest, FillRandomNonTarget vec draws = Some (filled, rest).
Proof.
  revert draws. induction vec as [| v vec IH]; simpl; intros draws H.
  - eauto.
  - destruct (draw_non_target_some draws ltac:(lia)) as (x & r & -> & _ & Hn).
    destruct (IH r ltac:(lia)) as (f & r' & ->). eauto.
Qed.

Lemma insert_target_only_at (vec : list Z) (p : nat) :
  target_free vec -> (p < length vec)%nat ->
  target_only_at p (<[p := TARGET_VALUE]> vec).
Proof.
  intros Hfree Hp i. split.
  - intros H. destruct (Nat.eq_dec p i) as [-> | Hne]; [reflexivity |].
    rewrite list_lookup_insert_ne in H by assumption.
    exfalso. exact (Hfree i H).
  - intros ->. apply list_lookup_insert_eq. exact Hp.
Qed.

End Initializers.

(** C8.  For a size [N > 0] that a vector can have, and draws that hold
    at least [N] values other than the target, the three initializers
    return a vector of [N] elements in which the target [2] is nowhere
    (worst case), at index [0] only (best case), at index [N / 2] only
    (average case). *)
Theorem initializers_place_target (N : Z) (draws : list Z) :
  0 < N <= vector_int_max_size ->
  (Z.to_nat N <= non_targets draws)%nat ->
  (exists vec rest,
      InitializeWorstCase N draws = Some (Returns vec, rest)
      /\ Z.of_nat (length vec) = N /\ target_free vec)
  /\ (exists vec rest,
      InitializeBestCase N draws = Some (Returns vec, rest)
      /\ Z.of_nat (length vec) = N /\ target_only_at 0 vec)
  /\ (exists vec rest,
      InitializeAverageCase N draws = Some (Returns vec, rest)
      /\ Z.of_nat (length vec) = N /\ target_only_at (Z.to_nat (N / 2)) vec).
Proof.
  intros HN Hdraws.
  destruct (FillRandomNonTarget_ends (replicate (Z.to_nat N) 0) draws)
    as (filled & rest & Hfill); [rewrite length_replicate; exact Hdraws |].
  destruct (FillRandomNonTarget_sound _ _ _ _ Hfill) as [Hlen Hfree].
  rewrite length_replicate in Hlen.
  assert (Hbig : (vector_int_max_size <? N) = false) by (apply Z.ltb_ge; lia).
  assert (Hpos : (0 <? N) = true) by (apply Z.ltb_lt; lia).
  unfold InitializeWorstCase, InitializeBestCase, InitializeAverageCase, initialize.
  rewrite Hbig, Hfill, Hpos.
  split; [| split]; eexists _, rest; (split; [reflexivity |]).
  - split; [lia | exact Hfree].
  - rewrite length_insert. split; [lia |].
    apply insert_target_only_at; [exact Hfree | lia].
  - rewrite length_insert. split; [lia |].
    apply insert_target_only_at; [exact Hfree |].
    rewrite Hlen. apply Z2Nat.inj_lt; [apply Z.div_pos; lia | lia |].
    apply Z.div_lt; lia.
Qed.

Lemma initializers_place_target_witness :
  (exists vec rest,
      InitializeWorstCase 5 [1; 2; 3; 3; 2; 2; 1; 1; 3] = Some (Returns vec, rest)
      /\ Z.of_nat (length vec) = 5 /\ target_free vec)
  /\ (exists vec rest,
      InitializeBestCase 5 [1; 2; 3; 3; 2; 2; 1; 1; 3] = Some (Returns vec, rest)
      /\ Z.of_nat (length vec) = 5 /\ target_only_at 0 vec)
  /\ (exists vec rest,
      InitializeAverageCase 5 [1; 2; 3; 3; 2; 2; 1; 1; 3] = Some (Returns vec, rest)
      /\ Z.of_nat (length vec) = 5 /\ target_only_at (Z.to_nat (5 / 2)) vec).
Proof.
  apply (initializers_place_target 5 [1; 2; 3; 3; 2; 2; 1; 1; 3]).
  - unfold vector_int_max_size. lia.
  - vm_compute. lia.
Defined.

(* ===================================================================== *)
(** * The threads a call starts *)
(* ===================================================================== *)

Section WorkerShape.

Variables N K : Z.
Hypothesis N_range : 1 <= N <= vector_int_max_size.
Hypothesis K_range : 1 <= K <= INT_MAX.

Let c := ceil_div N K.
Let m := worker_count N K.

Lemma worker_count_bounds :
  1 <= c /\ 1 <= m <= Z.min K N /\ (m - 1) * c < N <= m * c.
Proof.
  destruct (ceil_div_bounds N K ltac:(lia) K_range) as (Hc0 & Hlo & Hhi).
  fold c in Hc0, Hlo, Hhi.
  assert (Hc1 : 1 <= c) by nia.
  unfold m, worker_count. fold c. unfold ceil_div.
  pose proof (Z.mul_div_le (N + c - 1) c ltac:(lia)).
  pose proof (Z.mul_succ_div_gt (N + c - 1) c ltac:(lia)).
  set (q := (N + c - 1) / c) in *.
  assert (1 <= q) by nia.
  assert (q <= K).
  { destruct (Z_le_gt_dec q K); [assumption |].
    assert (c * (K + 1) <= c * q) by (apply Z.mul_le_mono_nonneg_l; lia). nia. }
  assert (q <= N).
  { destruct (Z_le_gt_dec q N); [assumption |].
    assert (c * (N + 1) <= c * q) by (apply Z.mul_le_mono_nonneg_l; lia). nia. }
  repeat split; try lia; nia.
Qed.

Lemma spec_partition_started (i : Z) :
  0 <= i < m -> spec_partition N c i = Some (nth_worker N c i).
Proof.
  intros Hi. destruct worker_count_bounds as (Hc & Hm & Hlo & Hhi).
  unfold spec_partition, nth_worker.
  destruct (Z.geb_spec (i * c) (Z.min (i * c + c) N)); [nia | reflexivity].
Qed.

Lemma spec_partition_skipped (i : Z) : m <= i -> spec_partition N c i = None.
Proof.
  intros Hi. destruct worker_count_bounds as (Hc & Hm & Hlo & Hhi).
  unfold spec_partition.
  destruct (Z.geb_spec (i * c) (Z.min (i * c + c) N)); [reflexivity | nia].
Qed.

(** The loop starts the threads of the slots [0 .. m - 1] and none
    after them. *)
Lemma spawn_workers :
  spawn N K (chunk_size N K) = nth_worker N c <$> seqZ 0 m.
Proof.
  destruct worker_count_bounds as (Hc & Hm & _).
  rewrite (spawn_exact N K ltac:(lia) K_range). unfold spec_partitions. fold c.
  replace K with (m + (K - m)) at 1 by lia.
  rewrite seqZ_app, omap_app by lia.
  assert (Hskip : omap (spec_partition N c) (seqZ (0 + m) (K - m)) = []).
  { assert (H : Forall (fun i => m <= i) (seqZ (0 + m) (K - m)))
      by (apply Forall_seqZ; lia).
    induction H as [| i l Hi _ IH]; [reflexivity |].
    cbn [omap list_omap]. rewrite (spec_partition_skipped i Hi). exact IH. }
  rewrite Hskip, app_nil_r.
  assert (H : Forall (fun i => 0 <= i < m) (seqZ 0 m))
    by (apply Forall_seqZ; lia).
  induction H as [| i l Hi _ IH]; [reflexivity |].
  cbn [omap list_omap]. rewrite (spec_partition_started i Hi), IH. reflexivity.
Qed.

End WorkerShape.

(** X4.  On a non-empty sequence a call with fan-out [K >= 1] starts
    [m = ceil (N / ceil (N / K))] threads, at least one and at most
    [min K N]; they take the slots [0 .. m - 1] in order, thread [i]
    scanning [[i c, min (i c + c, N))] with [c = ceil (N / K)]: every
    thread but the last gets exactly [c] elements, the last one between
    [1] and [c]. *)
Theorem spawn_closed_form (N K : Z) :
  1 <= N <= vector_int_max_size -> 1 <= K <= INT_MAX ->
  let c := ceil_div N K in
  let m := worker_count N K in
  spawn N K (chunk_size N K) = nth_worker N c <$> seqZ 0 m
  /\ 1 <= m <= Z.min K N
  /\ (forall i, 0 <= i < m - 1 -> part_length (nth_worker N c i) = c)
  /\ 1 <= part_length (nth_worker N c (m - 1)) <= c.
Proof.
  intros HN HK c m.
  destruct (worker_count_bounds N K HN HK) as (Hc & Hm & Hlo & Hhi).
  fold c m in Hc, Hm, Hlo, Hhi.
  split; [apply spawn_workers; assumption |].
  split; [exact Hm |].
  unfold part_length, nth_worker. cbn [w_start w_end].
  split; [intros i Hi; nia | nia].
Qed.

Lemma spawn_closed_form_witness :
  let c := ceil_div 10 6 in
  let m := worker_count 10 6 in
  spawn 10 6 (chunk_size 10 6) = nth_worker 10 c <$> seqZ 0 m
  /\ 1 <= m <= Z.min 6 10
  /\ (forall i, 0 <= i < m - 1 -> part_length (nth_worker 10 c i) = c)
  /\ 1 <= part_length (nth_worker 10 c (m - 1)) <= c.
Proof.
  apply (spawn_closed_form 10 6).
  - unfold vector_int_max_size. lia.
  - unfold INT_MAX. lia.
Defined.

Example spawn_six_requested_five_started :
  worker_count 10 6 = 5
  /\ spawn 10 6 (chunk_size 10 6)
     = [mkWorker 0 2 0; mkWorker 2 4 1; mkWorker 4 6 2; mkWorker 6 8 3;
        mkWorker 8 10 4].
Proof. split; reflexivity. Qed.

(** X5.  No thread reaches outside the containers: on a sequence of
    [N >= 1] elements and for a fan-out [K >= 1], every thread the loop
    starts scans a non-empty range that lies within [[0, N)] (all of its
    elements exist), and its slot is one of the [K] slots of [results],
    held by a word that [results] has. *)
Theorem accesses_in_bounds (vec : list Z) (K : Z) (w : worker) :
  let N := Z.of_nat (length vec) in
  1 <= N <= vector_int_max_size -> 1 <= K <= INT_MAX ->
  w ∈ spawn N K (chunk_size N K) ->
  0 <= w_start w < w_end w /\ w_end w <= N
  /\ length (take (Z.to_nat (w_end w - w_start w)) (drop (Z.to_nat (w_start w)) vec))
     = Z.to_nat (part_length w)
  /\ 0 <= w_slot w < K
  /\ (slot_word (w_slot w) < length (new_results K))%nat.
Proof.
  intros N HN HK Hw.
  pose proof (spawn_chain N K ltac:(lia) HK) as Hchain.
  pose proof (spawn_slot_range N K _ w Hw) as Hslot.
  apply list_elem_of_lookup in Hw as [i Hi].
  destruct (chain_bounds _ _ _ _ _ Hchain Hi) as [Hlo Hhi].
  split; [lia |]. split; [lia |]. split; [| split; [exact Hslot |]].
  - rewrite length_take, length_drop. unfold part_length, N in *. lia.
  - apply slot_word_in_range. exact Hslot.
Qed.

Lemma accesses_in_bounds_witness :
  let N := Z.of_nat (length [1; 3; 1; 3; 2; 1]) in
  0 <= w_start (mkWorker 4 6 2) < w_end (mkWorker 4 6 2)
  /\ w_end (mkWorker 4 6 2) <= N
  /\ length (take (Z.to_nat (w_end (mkWorker 4 6 2) - w_start (mkWorker 4 6 2)))
                  (drop (Z.to_nat (w_start (mkWorker 4 6 2))) [1; 3; 1; 3; 2; 1]))
     = Z.to_nat (part_length (mkWorker 4 6 2))
  /\ 0 <= w_slot (mkWorker 4 6 2) < 3
  /\ (slot_word (w_slot (mkWorker 4 6 2)) < length (new_results 3))%nat.
Proof.
  apply (accesses_in_bounds [1; 3; 1; 3; 2; 1] 3 (mkWorker 4 6 2)).
  - unfold vector_int_max_size. simpl. lia.
  - unfold INT_MAX. lia.
  - vm_compute. do 2 apply list_elem_of_further. apply list_elem_of_here.
Defined.

(* ===================================================================== *)
(** * Calls that return, and what they return *)
(* ===================================================================== *)

Section ValidCalls.

Variable library : oversized_request.
Variables (vec : list Z) (K : Z) (predicate : Z -> bool).
Hypothesis K_range : 1 <= K <= INT_MAX.

(** The machine a call starts from. *)
Let initial : machine :=
  {| results := new_results K;
     threads :=
       (fun w => (w, Ready))
         <$> spawn (Z.of_nat (length vec)) K
                   (chunk_size (Z.of_nat (length vec)) K) |}.

(** A fan-out that is a positive [int] passes the construction of
    [results] (its size is no oversized request) and the division: the
    call comes down to the threads. *)
Lemma ParallelAnyOf_valid (schedule : list nat) :
  ParallelAnyOf library schedule vec K predicate
  = if Z.of_nat (length vec) =? 0 then Returns false
    else Returns
           (any_result
              (results (join_all vec predicate (run vec predicate schedule initial)))
              K).
Proof.
  unfold ParallelAnyOf, construct_results, initial.
  destruct (_ =? 0); [reflexivity |].
  unfold INT_MAX, vector_bool_max_size in *.
  rewrite (to_size_t_small K) by (rewrite size_modulus_value; lia).
  destruct (Z.ltb_spec (2 ^ 63 - 1) K) as [? | _]; [lia |].
  destruct (Z.eqb_spec K 0) as [? | _]; [lia |].
  reflexivity.
Qed.

Lemma ParallelAnyOf_returns (schedule : list nat) :
  exists b, ParallelAnyOf library schedule vec K predicate = Returns b.
Proof. rewrite ParallelAnyOf_valid. destruct (_ =? 0); eauto. Qed.

(** No element satisfies the predicate: whatever the interleaving, no
    slot is set. *)
Lemma no_match_returns_false (schedule : list nat) :
  existsb predicate vec = false ->
  ParallelAnyOf library schedule vec K predicate = Returns false.
Proof.
  intros Hnone. rewrite ParallelAnyOf_valid.
  destruct (_ =? 0); [reflexivity |]. f_equal.
  apply not_true_is_false. intros Hany.
  set (N := Z.of_nat (length vec)) in *.
  set (ws := spawn N K (chunk_size N K)) in *.
  assert (Hslots : forall w, w ∈ ws -> 0 <= w_slot w).
  { intros w Hw. apply (spawn_slot_range N K _ w Hw). }
  assert (Hmatch : existsb predicate vec = true).
  { refine (any_result_sound vec predicate ws _ K _ Hany).
    apply (no_false_flag_join vec predicate ws Hslots).
    apply (no_false_flag_run vec predicate ws Hslots).
    apply no_false_flag_initial. }
  congruence.
Qed.

Hypothesis N_range : Z.of_nat (length vec) <= vector_int_max_size.

(** Threads that run one at a time leave in the slots whether the
    sequence holds a match. *)
Lemma one_at_a_time_returns (order : list nat) :
  ParallelAnyOf library (one_at_a_time order) vec K predicate
  = Returns (existsb predicate vec).
Proof.
  rewrite ParallelAnyOf_valid.
  destruct (Z.eqb_spec (Z.of_nat (length vec)) 0) as [H0 | H0].
  { destruct vec; [reflexivity | simpl in H0; lia]. }
  f_equal. unfold initial.
  set (N := Z.of_nat (length vec)) in *.
  set (ws := spawn N K (chunk_size N K)).
  assert (Hslot : forall w, w ∈ ws -> 0 <= w_slot w < K)
    by (intros w; apply spawn_slot_range).
  pose proof (spawn_slots_NoDup N K (chunk_size N K)) as Hnodup. fold ws in Hnodup.
  pose proof (spawn_chain N K ltac:(lia) K_range) as Hchain. fold ws in Hchain.
  rewrite run_one_at_a_time. unfold join_all.
  set (m0 := {| results := new_results K; threads := (fun w => (w, Ready)) <$> ws |}).
  set (m1 := foldl _ m0 order).
  assert (Hq1 : quiescent vec predicate ws K m1).
  { apply quiescent_fold; [exact Hslot | exact Hnodup |]. apply quiescent_initial. }
  destruct (quiescent_join vec predicate ws K Hslot Hnodup
              m1 (length (threads m1)) Hq1) as [Hq2 Hfin].
  rewrite (any_result_finished vec predicate ws K Hslot _ Hq2).
  2: { intros t w st Ht. apply (Hfin t w st); [| exact Ht].
       apply lookup_lt_Some in Ht.
       rewrite <- (length_fmap fst) in Ht |- *.
       rewrite (q_workers _ _ _ _ _ Hq2) in Ht.
       rewrite (q_workers _ _ _ _ _ Hq1). exact Ht. }
  rewrite (chain_any_of vec predicate 0 ws N ltac:(lia) Hchain).
  simpl. rewrite Z.sub_0_r, drop_0, take_ge by (unfold N; lia).
  reflexivity.
Qed.

End ValidCalls.

(* ===================================================================== *)
(** * A single thread *)
(* ===================================================================== *)

Section SingleThread.

Variables (vec : list Z) (predicate : Z -> bool).
Variables (w : worker) (R0 : list Z).

Let m0 : machine := {| results := R0; threads := [(w, Ready)] |}.
Let m1 : machine := step vec predicate 0 m0.
Let m2 : machine := step vec predicate 0 m1.

Lemma single_thread_reach (schedule : list nat) :
  let m := run vec predicate schedule m0 in m = m0 \/ m = m1 \/ m = m2.
Proof.
  cbv zeta. unfold run.
  assert (Hgen : forall m, m = m0 \/ m = m1 \/ m = m2 ->
            let m' := foldl (fun m t => step vec predicate t m) m schedule in
            m' = m0 \/ m' = m1 \/ m' = m2).
  { induction schedule as [| t schedule IH]; intros m Hm; [exact Hm |].
    simpl. apply IH.
    destruct t as [| t].
    - destruct Hm as [-> | [-> | ->]]; auto.
    - assert (Hsame : step vec predicate (S t) m = m).
      { destruct Hm as [-> | [-> | ->]]; reflexivity. }
      rewrite Hsame. exact Hm. }
  apply Hgen. auto.
Qed.

(** With one thread the schedule does not matter: the joins find the
    thread where the schedule left it and let it end. *)
Lemma single_thread_join (schedule : list nat) :
  join_all vec predicate (run vec predicate schedule m0)
  = join_all vec predicate m0.
Proof.
  destruct (single_thread_reach schedule) as [-> | [-> | ->]]; reflexivity.
Qed.

End SingleThread.

(** X6.  With fan-out [K = 1], or on a sequence of one element, the call
    starts a single thread, and then it returns whether some element
    satisfies the predicate under every schedule: what the sweep measures
    for [K = 1] is a plain sequential scan. *)
Theorem ParallelAnyOf_single_thread (library : oversized_request)
    (schedule : list nat) (vec : list Z) (K : Z) (predicate : Z -> bool) :
  1 <= Z.of_nat (length vec) <= vector_int_max_size -> 1 <= K <= INT_MAX ->
  K = 1 \/ length vec = 1%nat ->
  worker_count (Z.of_nat (length vec)) K = 1
  /\ ParallelAnyOf library schedule vec K predicate
     = Returns (existsb predicate vec).
Proof.
  intros HN HK Hone.
  set (N := Z.of_nat (length vec)) in *.
  assert (Hcount : worker_count N K = 1).
  { destruct (worker_count_bounds N K HN HK) as (Hc & Hm & Hlo & Hhi).
    destruct Hone as [-> | H1]; [lia |].
    assert (N = 1) by (unfold N; lia). lia. }
  split; [exact Hcount |].
  rewrite <- (one_at_a_time_returns library vec K predicate HK
                ltac:(fold N; lia) []).
  rewrite !ParallelAnyOf_valid by assumption.
  destruct (_ =? 0); [reflexivity |]. f_equal. f_equal. f_equal.
  fold N. rewrite (spawn_workers N K HN HK), Hcount.
  change (seqZ 0 1) with [0].
  apply (single_thread_join vec predicate _ (new_results K) schedule).
Qed.

Lemma ParallelAnyOf_single_thread_witness :
  worker_count (Z.of_nat (length [1; 3; 2; 1])) 1 = 1
  /\ ParallelAnyOf library_returns [0; 7; 0; 0]%nat [1; 3; 2; 1] 1 IsTarget
     = Returns (existsb IsTarget [1; 3; 2; 1]).
Proof.
  apply (ParallelAnyOf_single_thread library_returns [0; 7; 0; 0]%nat
           [1; 3; 2; 1] 1 IsTarget).
  - unfold vector_int_max_size. simpl. lia.
  - unfold INT_MAX. lia.
  - left. reflexivity.
Defined.

(** X7.  Every candidate of the sweep is a fan-out the engine accepts:
    with [maxThreads * 4] an [int], a call with a [K] of the candidate
    vector returns a boolean on every sequence and under every schedule;
    it neither throws from the construction of [results] nor divides by
    zero. *)
Theorem K_sweep_candidates_return (library : oversized_request) (P K : Z)
    (schedule : list nat) (vec : list Z) (predicate : Z -> bool) :
  is_int (4 * P) -> K ∈ K_values P ->
  exists b, ParallelAnyOf library schedule vec K predicate = Returns b.
Proof.
  intros HP HK.
  apply ParallelAnyOf_returns. exact (K_values_range P K HP HK).
Qed.

Lemma K_sweep_candidates_return_witness :
  exists b,
    ParallelAnyOf (library_throws bad_alloc) [2; 0; 1]%nat [1; 3; 2] 16 IsTarget
    = Returns b.
Proof.
  apply (K_sweep_candidates_return (library_throws bad_alloc) 4 16
           [2; 0; 1]%nat [1; 3; 2] IsTarget).
  - unfold is_int, INT_MIN, INT_MAX. lia.
  - rewrite K_values_4. do 5 apply list_elem_of_further. apply list_elem_of_here.
Defined.

(* ===================================================================== *)
(** * The fill, draw by draw *)
(* ===================================================================== *)

Section FillFacts.

Lemma draw_non_target_split (draws : list Z) (x : Z) (rest : list Z) :
  draw_non_target draws = Some (x, rest) ->
  exists skipped,
    draws = skipped ++ x :: rest
    /\ Forall (fun d => d = TARGET_VALUE) skipped /\ x <> TARGET_VALUE.
Proof.
  induction draws as [| d draws IH]; simpl; [discriminate |].
  destruct (Z.eqb_spec d TARGET_VALUE) as [-> | Hne].
  - intros H. destruct (IH H) as (skipped & -> & Hall & Hx).
    exists (TARGET_VALUE :: skipped). repeat split; [constructor; auto | exact Hx].
  - intros H. injection H as <- <-. exists []. repeat split; [constructor | exact Hne].
Qed.

Lemma filter_all_target (skipped : list Z) :
  Forall (fun d => d = TARGET_VALUE) skipped ->
  filter (fun x => x <> TARGET_VALUE) skipped = [].
Proof.
  induction 1 as [| d l Hd _ IH]; [reflexivity |].
  rewrite filter_cons_False by (intros H; exact (H Hd)). exact IH.
Qed.

(** The fill consumes a prefix of the draws and keeps its non-target
    values, in order. *)
Lemma FillRandomNonTarget_split (vec draws filled rest : list Z) :
  FillRandomNonTarget vec draws = Some (filled, rest) ->
  exists used,
    draws = used ++ rest
    /\ filter (fun x => x <> TARGET_VALUE) used = filled
    /\ length filled = length vec.
Proof.
  revert draws filled rest.
  induction vec as [| v vec IH]; simpl; intros draws filled rest H.
  - injection H as <- <-. exists []. auto.
  - destruct (draw_non_target draws) as [[x r] |] eqn:Ed; [| discriminate].
    destruct (FillRandomNonTarget vec r) as [[f r'] |] eqn:Ef; [| discriminate].
    injection H as <- <-.
    destruct (draw_non_target_split _ _ _ Ed) as (skipped & -> & Hall & Hx).
    destruct (IH _ _ _ Ef) as (used & -> & Hf & Hlen).
    exists (skipped ++ x :: used). split; [| split].
    + rewrite <- app_assoc. reflexivity.
    + rewrite filter_app, (filter_all_target _ Hall), filter_cons_True by exact Hx.
      simpl. congruence.
    + simpl. congruence.
Qed.

End FillFacts.

(** X8.  A fill that ends leaves in the vector the first [n] draws that
    are not the target, in the order drawn ([n] the length of the
    vector, whose old contents play no part), and hands on the draws that
    follow the last one it used. *)
Theorem FillRandomNonTarget_first_non_targets (vec draws filled rest : list Z) :
  FillRandomNonTarget vec draws = Some (filled, rest) ->
  filled = take (length vec) (filter (fun x => x <> TARGET_VALUE) draws)
  /\ exists used,
       draws = used ++ rest
       /\ filter (fun x => x <> TARGET_VALUE) used = filled.
Proof.
  intros H.
  destruct (FillRandomNonTarget_split _ _ _ _ H) as (used & -> & Hf & Hlen).
  split; [| exists used; auto].
  rewrite filter_app, Hf, <- Hlen. symmetry. apply take_app_length.
Qed.

Lemma FillRandomNonTarget_first_non_targets_witness :
  [1; 3; 3] = take (length [0; 0; 0])
                   (filter (fun x => x <> TARGET_VALUE) [2; 1; 2; 2; 3; 3; 2; 1])
  /\ exists used,
       [2; 1; 2; 2; 3; 3; 2; 1] = used ++ [2; 1]
       /\ filter (fun x => x <> TARGET_VALUE) used = [1; 3; 3].
Proof.
  apply (FillRandomNonTarget_first_non_targets
           [0; 0; 0] [2; 1; 2; 2; 3; 3; 2; 1] [1; 3; 3] [2; 1]).
  reflexivity.
Defined.

(** X9.  The fill ends exactly when the draws hold at least as many
    values other than the target as the vector has elements; a run of
    target draws of any length only delays it. *)
Theorem FillRandomNonTarget_ends_iff (vec draws : list Z) :
  is_Some (FillRandomNonTarget vec draws)
  <-> (length vec <= non_targets draws)%nat.
Proof.
  split.
  - intros [[filled rest] H].
    destruct (FillRandomNonTarget_split _ _ _ _ H) as (used & -> & Hf & Hlen).
    unfold non_targets. rewrite filter_app, length_app, Hf. lia.
  - intros H. destruct (FillRandomNonTarget_ends vec draws H) as (f & r & ->).
    eauto.
Qed.

Section ScenarioFacts.

Variables (place : list Z -> list Z) (N : Z) (draws vec rest : list Z).

(** A vector that an initializer returns is a fill, placed. *)
Lemma initialize_returns :
  initialize place N draws = Some (Returns vec, rest) ->
  N <= vector_int_max_size
  /\ exists filled,
       FillRandomNonTarget (replicate (Z.to_nat N) 0) draws = Some (filled, rest)
       /\ vec = place filled
       /\ length filled = Z.to_nat N
       /\ target_free filled.
Proof.
  unfold initialize.
  destruct (Z.ltb_spec vector_int_max_size N) as [| Hle]; [discriminate |].
  destruct (FillRandomNonTarget _ draws) as [[filled r] |] eqn:Hfill;
    [| discriminate].
  intros H. injection H as <- <-.
  destruct (FillRandomNonTarget_sound _ _ _ _ Hfill) as [Hlen Hfree].
  rewrite length_replicate in Hlen.
  split; [exact Hle |]. exists filled. auto.
Qed.

End ScenarioFacts.

Lemma target_free_no_match (vec : list Z) :
  target_free vec -> existsb IsTarget vec = false.
Proof.
  intros Hfree. apply not_true_is_false. intros H.
  apply existsb_exists in H as (x & Hx & Ht).
  apply Z.eqb_eq in Ht. subst x.
  apply list_elem_of_In, list_elem_of_lookup in Hx as [i Hi].
  exact (Hfree i Hi).
Qed.

Lemma target_at_match (vec : list Z) (p : nat) :
  vec !! p = Some TARGET_VALUE -> existsb IsTarget vec = true.
Proof.
  intros Hp. apply existsb_exists. exists TARGET_VALUE.
  split; [| reflexivity].
  apply list_elem_of_In. eapply list_elem_of_lookup_2. exact Hp.
Qed.

(** X10.  On the vector of the worst case every search of the sweep
    comes back empty-handed: for every fan-out [K >= 1] and under every
    interleaving of the threads, [ParallelAnyOf] returns [false]. *)
Theorem worst_case_is_never_found (library : oversized_request) (N : Z)
    (draws vec rest : list Z) (K : Z) (schedule : list nat) :
  InitializeWorstCase N draws = Some (Returns vec, rest) ->
  1 <= K <= INT_MAX ->
  ParallelAnyOf library schedule vec K IsTarget = Returns false.
Proof.
  intros Hinit HK.
  destruct (initialize_returns _ _ _ _ _ Hinit) as (_ & filled & _ & -> & _ & Hfree).
  apply no_match_returns_false; [exact HK |].
  apply target_free_no_match, Hfree.
Qed.

Lemma worst_case_is_never_found_witness :
  ParallelAnyOf library_returns [1; 0; 2; 1; 0]%nat [1; 3; 3; 1; 1] 3 IsTarget
  = Returns false.
Proof.
  apply (worst_case_is_never_found library_returns 5 [1; 2; 3; 3; 2; 2; 1; 1; 3]
           [1; 3; 3; 1; 1] [3] 3 [1; 0; 2; 1; 0]%nat).
  - reflexivity.
  - unfold INT_MAX. lia.
Defined.

(** X11.  On the vectors of the best and of the average case (a size
    [N > 0]) the search succeeds for every fan-out [K >= 1], [K > N]
    included, whenever the threads update their slots one at a time, in
    whatever order. *)
Theorem best_and_average_case_are_found (library : oversized_request) (N : Z)
    (draws vec rest : list Z) (K : Z) (order : list nat) :
  0 < N ->
  InitializeBestCase N draws = Some (Returns vec, rest)
  \/ InitializeAverageCase N draws = Some (Returns vec, rest) ->
  1 <= K <= INT_MAX ->
  ParallelAnyOf library (one_at_a_time order) vec K IsTarget = Returns true.
Proof.
  intros HN Hinit HK.
  assert (Hpos : (0 <? N) = true) by (apply Z.ltb_lt; lia).
  assert (H : Z.of_nat (length vec) <= vector_int_max_size
              /\ exists p, vec !! p = Some TARGET_VALUE).
  { destruct Hinit as [Hinit | Hinit];
      destruct (initialize_returns _ _ _ _ _ Hinit)
        as (Hmax & filled & _ & -> & Hlen & _);
      rewrite Hpos, length_insert, Hlen;
      (split; [lia |]); eexists; apply list_lookup_insert_eq; rewrite Hlen.
    - lia.
    - apply Z2Nat.inj_lt; [apply Z.div_pos; lia | lia | apply Z.div_lt; lia]. }
  destruct H as [Hlen [p Hp]].
  rewrite (one_at_a_time_returns library vec K IsTarget HK Hlen order).
  f_equal. exact (target_at_match vec p Hp).
Qed.

Lemma best_and_average_case_are_found_witness :
  ParallelAnyOf library_returns (one_at_a_time [3; 1]%nat) [1; 3; 2; 1; 1] 7
    IsTarget
  = Returns true.
Proof.
  apply (best_and_average_case_are_found library_returns 5
           [1; 2; 3; 3; 2; 2; 1; 1; 3]
           [1; 3; 2; 1; 1] [3] 7 [3; 1]%nat).
  - lia.
  - right. reflexivity.
  - unfold INT_MAX. lia.
Defined.

(** X12.  When every draw lies in [1 .. 3], as the distribution of
    line 59 promises, every element of the worst-case vector is [1] or
    [3], and every element of the other two vectors is [1], [2] or [3]. *)
Theorem initializers_value_domain (N : Z) (draws worst best average : list Z)
    (rest : list Z) :
  Forall (fun d => 1 <= d <= 3) draws ->
  InitializeWorstCase N draws = Some (Returns worst, rest) ->
  InitializeBestCase N draws = Some (Returns best, rest) ->
  InitializeAverageCase N draws = Some (Returns average, rest) ->
  Forall (fun x => x = 1 \/ x = 3) worst
  /\ Forall (fun x => 1 <= x <= 3) best
  /\ Forall (fun x => 1 <= x <= 3) average.
Proof.
  intros Hdraws Hworst Hbest Haverage.
  assert (Hfill : forall filled,
            FillRandomNonTarget (replicate (Z.to_nat N) 0) draws = Some (filled, rest) ->
            Forall (fun x => x = 1 \/ x = 3) filled).
  { intros filled H.
    destruct (FillRandomNonTarget_split _ _ _ _ H) as (used & -> & <- & _).
    apply Forall_app in Hdraws as [Hused _].
    apply Forall_forall. intros x Hx.
    apply list_elem_of_filter in Hx as [Hne Hx].
    rewrite Forall_forall in Hused. specialize (Hused x Hx).
    unfold TARGET_VALUE in Hne. lia. }
  assert (Hweak : forall filled,
            Forall (fun x => x = 1 \/ x = 3) filled ->
            Forall (fun x => 1 <= x <= 3) filled).
  { intros filled H. eapply Forall_impl; [exact H |]. simpl. lia. }
  split; [| split].
  - destruct (initialize_returns _ _ _ _ _ Hworst) as (_ & filled & Hf & -> & _).
    exact (Hfill filled Hf).
  - destruct (initialize_returns _ _ _ _ _ Hbest) as (_ & filled & Hf & -> & _).
    destruct (0 <? N); [| exact (Hweak _ (Hfill filled Hf))].
    apply Forall_insert; [exact (Hweak _ (Hfill filled Hf)) |].
    unfold TARGET_VALUE. lia.
  - destruct (initialize_returns _ _ _ _ _ Haverage) as (_ & filled & Hf & -> & _).
    destruct (0 <? N); [| exact (Hweak _ (Hfill filled Hf))].
    apply Forall_insert; [exact (Hweak _ (Hfill filled Hf)) |].
    unfold TARGET_VALUE. lia.
Qed.

Lemma initializers_value_domain_witness :
  Forall (fun x => x = 1 \/ x = 3) [1; 3; 3; 1; 1]
  /\ Forall (fun x => 1 <= x <= 3) [2; 3; 3; 1; 1]
  /\ Forall (fun x => 1 <= x <= 3) [1; 3; 2; 1; 1].
Proof.
  apply (initializers_value_domain 5 [1; 2; 3; 3; 2; 2; 1; 1; 3]
           [1; 3; 3; 1; 1] [2; 3; 3; 1; 1] [1; 3; 2; 1; 1] [3]).
  - repeat constructor; lia.
  - reflexivity.
  - reflexivity.
  - reflexivity.
Defined.

(* ===================================================================== *)
(** * The candidates and the table, in closed form *)
(* ===================================================================== *)

Section AscendingLists.

Lemma ascending_NoDup (l : list Z) : StronglySorted Z.lt l -> NoDup l.
Proof.
  induction 1 as [| x l _ IH Hx]; constructor; [| exact IH].
  intros Hin. rewrite Forall_forall in Hx. specialize (Hx x Hin). lia.
Qed.

(** Two strictly ascending lists with the same elements are equal. *)
Lemma ascending_unique (l1 l2 : list Z) :
  StronglySorted Z.lt l1 -> StronglySorted Z.lt l2 ->
  (forall x, x ∈ l1 <-> x ∈ l2) -> l1 = l2.
Proof.
  intros H1 H2 Hsame.
  apply (StronglySorted_unique_strong Z.lt); [| exact H1 | exact H2 |].
  - intros x1 x2 _ _ Hlt Hgt. lia.
  - apply NoDup_Permutation; [apply ascending_NoDup, H1 | apply ascending_NoDup, H2 |].
    exact Hsame.
Qed.

Lemma seqZ_ascending (a n : Z) : StronglySorted Z.lt (seqZ a n).
Proof.
  destruct (Z_le_gt_dec n 0) as [Hn | Hn];
    [rewrite seqZ_nil by lia; constructor |].
  rewrite <- (Z2Nat.id n) by lia. generalize (Z.to_nat n). clear n Hn.
  intros n. revert a. induction n as [| n IH]; intros a; [constructor |].
  rewrite seqZ_cons by lia.
  replace (Z.pred (Z.of_nat (S n))) with (Z.of_nat n) by lia.
  constructor; [apply IH |].
  apply Forall_seqZ. lia.
Qed.

Lemma filter_ascending (P : Z -> Prop) `{!forall x, Decision (P x)} (l : list Z) :
  StronglySorted Z.lt l -> StronglySorted Z.lt (filter P l).
Proof.
  induction 1 as [| x l _ IH Hx]; [constructor |].
  rewrite filter_cons. destruct (decide (P x)); [| exact IH].
  constructor; [exact IH |].
  apply Forall_forall. intros y Hy. apply list_elem_of_filter in Hy as [_ Hy].
  rewrite Forall_forall in Hx. exact (Hx y Hy).
Qed.

Lemma ascending_lookup (l : list Z) (i j : nat) (a b : Z) :
  StronglySorted Z.lt l -> l !! i = Some a -> l !! j = Some b ->
  a < b -> (i < j)%nat.
Proof.
  intros Hs. revert i j. induction Hs as [| x l _ IH Hx]; intros i j Hi Hj Hab;
    [discriminate |].
  rewrite Forall_forall in Hx.
  destruct i as [| i], j as [| j]; simpl in Hi, Hj.
  - injection Hi as <-. injection Hj as <-. lia.
  - lia.
  - injection Hj as <-.
    pose proof (Hx a (list_elem_of_lookup_2 _ _ _ Hi)). lia.
  - pose proof (IH i j Hi Hj Hab). lia.
Qed.

End AscendingLists.

Lemma K_values_ascending (P : Z) : StronglySorted Z.lt (K_values P).
Proof. apply unique_sort_ascending. Qed.

Lemma K_values_eq (P : Z) :
  is_int (4 * P) ->
  K_values P = if P <? 2 then [1] else seqZ 1 P ++ [2 * P; 4 * P].
Proof.
  intros HP. apply ascending_unique; [apply K_values_ascending | |].
  - destruct (Z.ltb_spec P 2); [repeat constructor |].
    apply StronglySorted_app_2; [| apply seqZ_ascending | repeat constructor; lia].
    intros x1 x2 H1 H2. apply elem_of_seqZ in H1.
    rewrite !elem_of_cons, elem_of_nil in H2. lia.
  - intros x. rewrite (elem_of_K_values P x HP).
    destruct (Z.ltb_spec P 2).
    + rewrite list_elem_of_singleton. lia.
    + rewrite elem_of_app, elem_of_seqZ, !elem_of_cons, elem_of_nil. lia.
Qed.

(** X13.  The candidate vector in closed form, for [maxThreads * 4] an
    [int]: [1] alone when the hardware concurrency [P] is below [2],
    and otherwise [1, 2, ..., P, 2 P, 4 P], that is [P + 2] candidates.
    The pushes never produce a duplicate, and the [8] of
    [max (4 P) 8] only ever shows as [4 P]. *)
Theorem K_values_closed_form (P : Z) :
  is_int (4 * P) ->
  K_values P = (if P <? 2 then [1] else seqZ 1 P ++ [2 * P; 4 * P])
  /\ (2 <= P -> Z.of_nat (length (K_values P)) = P + 2).
Proof.
  intros HP. split; [apply K_values_eq, HP |].
  intros H2. rewrite (K_values_eq P HP).
  destruct (Z.ltb_spec P 2); [lia |].
  rewrite length_app, length_seqZ. simpl. lia.
Qed.

Lemma K_values_closed_form_witness :
  K_values 6 = (if 6 <? 2 then [1] else seqZ 1 6 ++ [2 * 6; 4 * 6])
  /\ (2 <= 6 -> Z.of_nat (length (K_values 6)) = 6 + 2).
Proof.
  apply (K_values_closed_form 6).
  unfold is_int, INT_MIN, INT_MAX. lia.
Defined.

Section TableShape.

Variables (measure : nat -> Q) (N P : Z).
Hypothesis P_known : 1 <= P.
Hypothesis P_range : is_int (4 * P).

Lemma filter_all (Q : Z -> Prop) `{!forall x, Decision (Q x)} (l : list Z) :
  Forall Q l -> filter Q l = l.
Proof.
  induction 1 as [| x l Hx _ IH]; [reflexivity |].
  rewrite filter_cons_True by exact Hx. rewrite IH. reflexivity.
Qed.

Lemma not_skipped_up_to_2P (K : Z) :
  1 <= K <= 2 * P -> skipped N P K = false.
Proof.
  intros HK. apply not_true_is_false. intros H.
  apply skipped_candidate in H; [lia | exact P_range |].
  unfold is_int, INT_MIN, INT_MAX in *. lia.
Qed.

Lemma skipped_4P : 2 <= P -> skipped N P (4 * P) = (N <? 4 * P).
Proof.
  intros H2. apply eq_true_iff_eq.
  rewrite skipped_candidate, Z.ltb_lt;
    [lia | exact P_range | unfold is_int, INT_MIN, INT_MAX in *; lia].
Qed.

Lemma table_keys_eq :
  (table (K_sweep measure N P)).*1
  = if (2 <=? P) && (N <? 4 * P) then seqZ 1 P ++ [2 * P] else K_values P.
Proof.
  unfold K_sweep. rewrite table_keys_fold. simpl.
  rewrite (K_values_eq P P_range).
  destruct (Z.ltb_spec P 2) as [H1 | H2].
  - destruct (Z.leb_spec 2 P); [lia |]. simpl.
    apply filter_all. constructor; [| constructor].
    apply not_skipped_up_to_2P. lia.
  - destruct (Z.leb_spec 2 P); [| lia]. simpl.
    rewrite filter_app, filter_all
      by (apply Forall_seqZ; intros K HK; apply not_skipped_up_to_2P; lia).
    rewrite filter_cons_True by (apply not_skipped_up_to_2P; lia).
    rewrite filter_cons, (skipped_4P H2).
    destruct (N <? 4 * P).
    + destruct (decide (true = false)); [discriminate | reflexivity].
    + destruct (decide (false = false)); [reflexivity | congruence].
Qed.

End TableShape.

(** X14.  With a hardware concurrency [P >= 1] the test of line 123 can
    only ever drop the last candidate [4 P], and drops it exactly when
    the sequence is shorter than [4 P] (and [P >= 2]): every candidate up
    to [2 P] is measured on every input, the empty one included.  Each
    measured candidate costs three timed runs, after the four reference
    timings. *)
Theorem K_sweep_table_closed_form (measure : nat -> Q) (N P : Z) :
  1 <= P -> is_int (4 * P) ->
  let s := K_sweep measure N P in
  (table s).*1
  = (if (2 <=? P) && (N <? 4 * P) then seqZ 1 P ++ [2 * P] else K_values P)
  /\ calls s = (4 + 3 * length (table s))%nat.
Proof.
  intros H1 HP s. split; [apply table_keys_eq; assumption |].
  unfold s, K_sweep.
  generalize (K_values P). intros Ks.
  assert (Hgen : forall s0, calls s0 = (4 + 3 * length (table s0))%nat ->
            let s' := foldl (sweep_step measure N P) s0 Ks in
            calls s' = (4 + 3 * length (table s'))%nat).
  { induction Ks as [| K Ks IH]; intros s0 H0; [exact H0 |].
    simpl. apply IH. unfold sweep_step.
    destruct (skipped N P K); [exact H0 |].
    cbn [calls table]. rewrite length_app, H0. simpl. lia. }
  apply Hgen. reflexivity.
Qed.

Lemma K_sweep_table_closed_form_witness :
  let s := K_sweep (fun _ => 1%Q) 10 4 in
  (table s).*1
  = (if (2 <=? 4) && (10 <? 4 * 4) then seqZ 1 4 ++ [2 * 4] else K_values 4)
  /\ calls s = (4 + 3 * length (table s))%nat.
Proof.
  apply (K_sweep_table_closed_form (fun _ => 1%Q) 10 4).
  - lia.
  - unfold is_int, INT_MIN, INT_MAX. lia.
Defined.

(* ===================================================================== *)
(** * Ties: the first minimum wins *)
(* ===================================================================== *)

Section FirstMinimum.

Variable measure : nat -> Q.
Hypothesis measure_finite : forall n, (measure n < DBL_MAX)%Q.
Variables dataSize maxThreads : Z.

Lemma first_minimum_step (s : sweep_state) (K : Z) :
  first_minimum s ->
  first_minimum (sweep_step measure dataSize maxThreads s K).
Proof.
  intros Hs. unfold sweep_step.
  destruct (skipped dataSize maxThreads K); [exact Hs |].
  set (t := best_of_3 measure (calls s)).
  assert (Ht : (t < DBL_MAX)%Q) by apply (best_of_3_finite measure measure_finite).
  right. cbn [table bestTime bestK].
  destruct (Qlt_le_dec t (bestTime s)) as [Hlt | Hle].
  - exists (length (table s)). split; [| split].
    + rewrite lookup_app_r, Nat.sub_diag by lia. reflexivity.
    + intros j K' t' Hj.
      destruct (Nat.lt_ge_cases j (length (table s))) as [Hj' | Hj'].
      * rewrite lookup_app_l in Hj by assumption.
        destruct Hs as [(Hnil & _) | (i & _ & Hall & _)].
        -- rewrite Hnil in Hj. discriminate Hj.
        -- apply Qlt_le_weak. exact (Qlt_le_trans _ _ _ Hlt (Hall j K' t' Hj)).
      * rewrite lookup_app_r in Hj by assumption.
        destruct (j - length (table s))%nat; [| discriminate Hj].
        injection Hj as _ <-. apply Qle_refl.
    + intros j K' t' Hj' Hj. rewrite lookup_app_l in Hj by assumption.
      destruct Hs as [(Hnil & _) | (i & _ & Hall & _)].
      * rewrite Hnil in Hj. discriminate Hj.
      * exact (Qlt_le_trans _ _ _ Hlt (Hall j K' t' Hj)).
  - destruct Hs as [(_ & Hmax & _) | (i & Hi & Hall & Hfirst)].
    + exfalso. rewrite Hmax in Hle. exact (Qlt_not_le _ _ Ht Hle).
    + pose proof (lookup_lt_Some _ _ _ Hi) as Hlen.
      exists i. split; [| split].
      * rewrite lookup_app_l by assumption. exact Hi.
      * intros j K' t' Hj.
        destruct (Nat.lt_ge_cases j (length (table s))) as [Hj' | Hj'].
        -- rewrite lookup_app_l in Hj by assumption. exact (Hall j K' t' Hj).
        -- rewrite lookup_app_r in Hj by assumption.
           destruct (j - length (table s))%nat; [| discriminate Hj].
           injection Hj as _ <-. exact Hle.
      * intros j K' t' Hj' Hj. rewrite lookup_app_l in Hj by lia.
        exact (Hfirst j K' t' Hj' Hj).
Qed.

Lemma first_minimum_sweep : first_minimum (K_sweep measure dataSize maxThreads).
Proof.
  unfold K_sweep. generalize (K_values maxThreads). intros Ks.
  assert (Hgen : forall s, first_minimum s ->
            first_minimum (foldl (sweep_step measure dataSize maxThreads) s Ks)).
  { induction Ks as [| K Ks IH]; intros s Hs; [exact Hs |].
    simpl. apply IH, first_minimum_step, Hs. }
  apply Hgen. left. auto.
Qed.

End FirstMinimum.

(** X15.  Ties go to the smaller fan-out: the reported best [K] is the
    smallest measured candidate whose time is the least (every measured
    candidate below it took strictly longer), it is one of the
    candidates, hence at least [1], and the [0] that [bestK] starts
    from is reported only when no candidate was measured at all. *)
Theorem K_sweep_best_is_first_minimum (measure : nat -> Q) (N P : Z) :
  (forall n, (measure n < DBL_MAX)%Q) -> is_int (4 * P) ->
  let s := K_sweep measure N P in
  (forall K t, (K, t) ∈ table s -> K < bestK s -> (bestTime s < t)%Q)
  /\ (table s <> [] -> bestK s ∈ K_values P /\ 1 <= bestK s)
  /\ (table s = [] <-> bestK s = 0).
Proof.
  intros Hfin HP s.
  pose proof (first_minimum_sweep measure Hfin N P) as Hfirst. fold s in Hfirst.
  assert (Hkeys : (table s).*1
                  = filter (fun K => skipped N P K = false) (K_values P)).
  { unfold s, K_sweep. rewrite table_keys_fold. reflexivity. }
  assert (Hasc : StronglySorted Z.lt (table s).*1).
  { rewrite Hkeys. apply filter_ascending, K_values_ascending. }
  assert (Hbest : table s <> [] -> bestK s ∈ K_values P /\ 1 <= bestK s).
  { intros Hne. destruct Hfirst as [(Hnil & _) | (i & Hi & _)]; [contradiction |].
    assert (Hin : bestK s ∈ (table s).*1).
    { apply list_elem_of_fmap. exists (bestK s, bestTime s).
      split; [reflexivity | eapply list_elem_of_lookup_2; exact Hi]. }
    rewrite Hkeys in Hin. apply list_elem_of_filter in Hin as [_ Hin].
    split; [exact Hin |]. apply (K_values_range P _ HP Hin). }
  split; [| split; [exact Hbest |]].
  - intros K t Hin HK.
    destruct Hfirst as [(Hnil & _) | (i & Hi & _ & Hbefore)].
    { rewrite Hnil in Hin. apply elem_of_nil in Hin. contradiction. }
    apply list_elem_of_lookup in Hin as [j Hj].
    apply (Hbefore j K t); [| exact Hj].
    apply (ascending_lookup (table s).*1 j i K (bestK s) Hasc);
      [rewrite list_lookup_fmap, Hj | rewrite list_lookup_fmap, Hi | exact HK];
      reflexivity.
  - split.
    + intros Hnil. destruct Hfirst as [(_ & _ & H0) | (i & Hi & _)]; [exact H0 |].
      rewrite Hnil in Hi. discriminate Hi.
    + intros H0. destruct (table s) as [| row rows] eqn:E; [reflexivity |].
      exfalso. assert (Hne : table s <> []) by (rewrite E; discriminate).
      rewrite <- E in Hbest. destruct (Hbest Hne) as [_ H1]. lia.
Qed.

Lemma K_sweep_best_is_first_minimum_witness :
  let measure := fun n : nat => nth n [0.3; 0.4; 0.2; 0.6; 0.05; 0.03; 0.04; 0.03; 0.07; 0.09]%Q 0.5%Q in
  let s := K_sweep measure 10 4 in
  (forall K t, (K, t) ∈ table s -> K < bestK s -> (bestTime s < t)%Q)
  /\ (table s <> [] -> bestK s ∈ K_values 4 /\ 1 <= bestK s)
  /\ (table s = [] <-> bestK s = 0).
Proof.
  apply (K_sweep_best_is_first_minimum
           (fun n : nat => nth n [0.3; 0.4; 0.2; 0.6; 0.05; 0.03; 0.04; 0.03; 0.07; 0.09]%Q 0.5%Q)
           10 4).
  - intros n. do 10 (destruct n as [| n]; [reflexivity |]).
    destruct n; reflexivity.
  - unfold is_int, INT_MIN, INT_MAX. lia.
Defined.

Example K_sweep_tie_goes_to_smaller_K :
  let measure := fun n : nat => nth n [0.3; 0.4; 0.2; 0.6; 0.05; 0.03; 0.04; 0.03; 0.07; 0.09]%Q 0.5%Q in
  let s := K_sweep measure 10 4 in
  (table s).*1 = [1; 2; 3; 4; 8] /\ bestK s = 1 /\ bestTime s = 0.03%Q
  /\ table s !! 1%nat = Some (2, 0.03%Q).
Proof. repeat split. Qed.

(** X17.  When the hardware concurrency is reported as [0] (the value
    [hardware_concurrency] gives when it cannot tell) or comes out
    negative, [1] is the only candidate.  On a non-empty sequence it is
    measured and is the best [K]; on the empty sequence it is skipped
    too, no row is printed, and the report shows the initial values:
    best [K = 0] with time [DBL_MAX]. *)
Theorem K_sweep_unknown_concurrency (measure : nat -> Q) (N P : Z) :
  (forall n, (measure n < DBL_MAX)%Q) ->
  P <= 0 -> is_int (4 * P) -> 0 <= N ->
  let s := K_sweep measure N P in
  K_values P = [1]
  /\ (N = 0 -> table s = [] /\ bestK s = 0 /\ bestTime s = DBL_MAX)
  /\ (0 < N -> (table s).*1 = [1] /\ bestK s = 1).
Proof.
  intros Hfin HP Hint HN s.
  assert (HK : K_values P = [1]).
  { rewrite (K_values_eq P Hint). destruct (Z.ltb_spec P 2); [reflexivity | lia]. }
  assert (Hskip : skipped N P 1 = (N =? 0)).
  { apply eq_true_iff_eq. rewrite skipped_candidate, Z.eqb_eq;
      [lia | exact Hint | unfold INT_MAX; lia]. }
  split; [exact HK |].
  unfold s, K_sweep. rewrite HK. cbn [foldl]. unfold sweep_step.
  rewrite Hskip. split.
  - intros ->. simpl. auto.
  - intros Hpos. destruct (Z.eqb_spec N 0); [lia |].
    cbn [table bestK bestTime sweep_start]. split; [reflexivity |].
    destruct (Qlt_le_dec (best_of_3 measure (calls sweep_start)) DBL_MAX)
      as [_ | Hle]; [reflexivity |].
    exfalso. exact (Qlt_not_le _ _ (best_of_3_finite measure Hfin _) Hle).
Qed.

Lemma K_sweep_unknown_concurrency_witness :
  let s := K_sweep (fun _ => 1%Q) 0 0 in
  K_values 0 = [1]
  /\ (0 = 0 -> table s = [] /\ bestK s = 0 /\ bestTime s = DBL_MAX)
  /\ (0 < 0 -> (table s).*1 = [1] /\ bestK s = 1).
Proof.
  apply (K_sweep_unknown_concurrency (fun _ => 1%Q) 0 0).
  - intros n. reflexivity.
  - lia.
  - unfold is_int, INT_MIN, INT_MAX. lia.
  - lia.
Defined.

(* ===================================================================== *)
(** * The three scenarios of [main] *)
(* ===================================================================== *)

Section ScenarioSequence.

Let non_target (x : Z) : Prop := x <> TARGET_VALUE.

(** What a fill leaves of the draws holds the non-target values it did
    not use. *)
Lemma FillRandomNonTarget_rest (vec draws filled rest : list Z) :
  FillRandomNonTarget vec draws = Some (filled, rest) ->
  filled = take (length vec) (filter non_target draws)
  /\ filter non_target rest = drop (length vec) (filter non_target draws).
Proof.
  intros H.
  destruct (FillRandomNonTarget_split _ _ _ _ H) as (used & -> & Hf & Hlen).
  fold non_target in Hf. rewrite filter_app, Hf, <- Hlen.
  split; [symmetry; apply take_app_length | symmetry; apply drop_app_length].
Qed.

Lemma FillRandomNonTarget_needs (vec draws filled rest : list Z) :
  FillRandomNonTarget vec draws = Some (filled, rest) ->
  (length vec <= non_targets draws)%nat.
Proof.
  intros H.
  destruct (FillRandomNonTarget_split _ _ _ _ H) as (used & -> & Hf & Hlen).
  unfold non_targets. rewrite filter_app, length_app, Hf. lia.
Qed.

Variables (place : list Z -> list Z) (N : Z).
Hypothesis N_range : 0 <= N <= vector_int_max_size.

(** One initializer: it ends when the draws hold [N] non-target values,
    and then returns them, placed, and hands on the others. *)
Lemma initialize_exact (draws : list Z) :
  let n := Z.to_nat N in
  let nt := filter non_target draws in
  if decide (n <= length nt)%nat then
    exists rest,
      initialize place N draws = Some (Returns (place (take n nt)), rest)
      /\ filter non_target rest = drop n nt
  else initialize place N draws = None.
Proof.
  intros n nt. unfold initialize.
  destruct (Z.ltb_spec vector_int_max_size N); [lia |]. fold n.
  destruct (FillRandomNonTarget (replicate n 0) draws) as [[filled rest] |] eqn:E.
  - pose proof (FillRandomNonTarget_needs _ _ _ _ E) as Hneeds.
    destruct (FillRandomNonTarget_rest _ _ _ _ E) as [-> Hrest].
    rewrite length_replicate in Hneeds, Hrest |- *.
    destruct (decide (n <= length nt)%nat) as [_ | Hnot];
      [| exfalso; apply Hnot; exact Hneeds].
    exists rest. auto.
  - destruct (decide (n <= length nt)%nat) as [Hle | _]; [| reflexivity].
    destruct (FillRandomNonTarget_ends (replicate n 0) draws) as (f & r & Hf);
      [rewrite length_replicate; exact Hle | congruence].
Qed.

End ScenarioSequence.

(** X16.  [main] fills its three vectors from three consecutive
    stretches of the same random stream: with [nt] the draws that are
    not the target and [n] the size, the worst-case vector is the first
    [n] of [nt], the best-case vector the next [n] with the target
    written at index [0], the average-case vector the [n] after those
    with the target at index [n / 2]; the three fills end exactly when
    the stream holds [3 n] non-target draws. *)
Theorem scenarios_use_consecutive_draws (N : Z) (draws : list Z) :
  0 < N <= vector_int_max_size ->
  let n := Z.to_nat N in
  let nt := filter (fun x => x <> TARGET_VALUE) draws in
  if decide (3 * n <= length nt)%nat then
    exists rest,
      scenarios N draws
      = Some (Returns
                [(Worst_Case, take n nt);
                 (Best_Case, <[0%nat := TARGET_VALUE]> (take n (drop n nt)));
                 (Average_Case,
                  <[Z.to_nat (N / 2) := TARGET_VALUE]> (take n (drop (2 * n) nt)))],
              rest)
  else scenarios N draws = None.
Proof.
  intros HN n nt.
  assert (Hpos : (0 <? N) = true) by (apply Z.ltb_lt; lia).
  unfold scenarios.
  pose proof (initialize_exact (fun vec => vec) N ltac:(lia) draws) as H1.
  cbv zeta in H1. fold n nt in H1.
  unfold InitializeWorstCase.
  destruct (decide (n <= length nt)%nat) as [Hn1 | Hn1];
    [| rewrite H1; destruct (decide (3 * n <= length nt)%nat); [lia | reflexivity]].
  destruct H1 as (rest1 & -> & Hrest1). cbn [then_with].
  pose proof (initialize_exact
                (fun vec => if 0 <? N then <[0%nat := TARGET_VALUE]> vec else vec)
                N ltac:(lia) rest1) as H2.
  cbv zeta in H2. fold n in H2. rewrite Hrest1, length_drop in H2.
  unfold InitializeBestCase.
  destruct (decide (n <= length nt - n)%nat) as [Hn2 | Hn2];
    [| rewrite H2; destruct (decide (3 * n <= length nt)%nat); [lia | reflexivity]].
  destruct H2 as (rest2 & -> & Hrest2). cbn [then_with].
  pose proof (initialize_exact
                (fun vec => if 0 <? N then <[Z.to_nat (N / 2) := TARGET_VALUE]> vec
                            else vec)
                N ltac:(lia) rest2) as H3.
  cbv zeta in H3. fold n in H3.
  rewrite Hrest2, drop_drop, length_drop in H3.
  unfold InitializeAverageCase.
  destruct (decide (n <= length nt - (n + n))%nat) as [Hn3 | Hn3];
    [| rewrite H3; destruct (decide (3 * n <= length nt)%nat); [lia | reflexivity]].
  destruct H3 as (rest3 & -> & _). cbn [then_with].
  destruct (decide (3 * n <= length nt)%nat); [| lia].
  exists rest3. rewrite Hpos.
  replace (2 * n)%nat with (n + n)%nat by lia. reflexivity.
Qed.

Lemma scenarios_use_consecutive_draws_witness :
  let n := Z.to_nat 2 in
  let nt := filter (fun x => x <> TARGET_VALUE) [1; 2; 3; 3; 2; 2; 1; 1; 3; 2; 1] in
  if decide (3 * n <= length nt)%nat then
    exists rest,
      scenarios 2 [1; 2; 3; 3; 2; 2; 1; 1; 3; 2; 1]
      = Some (Returns
                [(Worst_Case, take n nt);
                 (Best_Case, <[0%nat := TARGET_VALUE]> (take n (drop n nt)));
                 (Average_Case,
                  <[Z.to_nat (2 / 2) := TARGET_VALUE]> (take n (drop (2 * n) nt)))],
              rest)
  else scenarios 2 [1; 2; 3; 3; 2; 2; 1; 1; 3; 2; 1] = None.
Proof.
  apply (scenarios_use_consecutive_draws 2 [1; 2; 3; 3; 2; 2; 1; 1; 3; 2; 1]).
  unfold vector_int_max_size. lia.
Defined.

Example scenarios_small :
  scenarios 2 [1; 2; 3; 3; 2; 2; 1; 1; 3; 2; 1]
  = Some (Returns [(Worst_Case, [1; 3]); (Best_Case, [2; 1]);
                   (Average_Case, [1; 2])], [2; 1]).
Proof. reflexivity. Qed.

Example scenarios_short_of_draws :
  scenarios 2 [1; 2; 3; 3; 2; 2; 1] = None.
Proof. reflexivity. Qed.

(** [main] runs the scenarios with the size of line 155, which a vector
    can have; when the file cannot be opened it draws and analyses
    nothing. *)
Lemma main_dataSize_fits : 0 < dataSize <= vector_int_max_size.
Proof. unfold dataSize, vector_int_max_size. lia. Qed.

Lemma main_unopened (draws : list Z) :
  main false draws = Some (Returns (1, []), draws).
Proof. reflexivity. Qed.

Lemma main_opened (draws : list Z) (analysed : list (scenario * list Z))
    (rest : list Z) :
  scenarios dataSize draws = Some (Returns analysed, rest) ->
  main true draws = Some (Returns (0, analysed), rest).
Proof. unfold main. intros ->. reflexivity. Qed.
